(** * BackgroundAnimation: the particle-field canvas renderer

    A shallow embedding of the effect body of the [BackgroundAnimation]
    React component (the only component of the front end with per-frame
    computation): its [resize] and [step] closures, the particle array it
    creates at mount, and the cleanup function it returns.

    Numbers.  JavaScript numbers are idealised as real numbers: rounding,
    NaN and infinities are outside this model, except for the radius
    expression, which is also given in binary64 ([radius_binary64]) because
    rounding decides whether its upper bound is attained.  Integer-valued host
    attributes ([clientWidth], [innerWidth], [canvas.width]) are integers
    and are injected with [IZR] where the code mixes them with numbers.

    Effects.  The closure variables and the part of the browser the code
    talks to (the 2D context, the frame scheduler, the resize observer,
    [Math.random]) are fields of one [World]; the code is written in a
    state-and-failure monad over it.  Every call made on a host object is
    appended to [log]. *)

From Stdlib Require PrimFloat.
Import (notations) PrimFloat.
From Stdlib Require Import Reals Lra Lia ZArith List.
From stdpp Require Import base list strings.
Import ListNotations.

Open Scope R_scope.

(** ** Data *)

(** The object literal built for each particle. *)
Record Particle := mkParticle {
  x : R; y : R; vx : R; vy : R; r : R
}.

Definition set_x (p : Particle) (v : R) : Particle :=
  {| x := v; y := y p; vx := vx p; vy := vy p; r := r p |}.
Definition set_y (p : Particle) (v : R) : Particle :=
  {| x := x p; y := v; vx := vx p; vy := vy p; r := r p |}.

(** CSS colour [rgba(red, green, blue, alpha)]. *)
Record Colour := rgba { red : Z; green : Z; blue : Z; alpha : R }.

(** A [CanvasGradient]: the two circles given to [createRadialGradient] and
    the colour stops added so far, in order. *)
Record Gradient := mkGradient {
  g_x0 : R; g_y0 : R; g_r0 : R;
  g_x1 : R; g_y1 : R; g_r1 : R;
  g_stops : list (R * Colour)
}.

Definition createRadialGradient (x0 y0 r0 x1 y1 r1 : R) : Gradient :=
  mkGradient x0 y0 r0 x1 y1 r1 [].

Definition addColorStop (g : Gradient) (offset : R) (c : Colour) : Gradient :=
  mkGradient (g_x0 g) (g_y0 g) (g_r0 g) (g_x1 g) (g_y1 g) (g_r1 g)
             (g_stops g ++ [(offset, c)]).

Inductive Style :=
| Solid (c : Colour)
| Radial (g : Gradient).

(** Calls on host objects, as the code makes them. *)
Inductive Call :=
| SetCanvasWidth (n : Z)
| SetCanvasHeight (n : Z)
| SetTransform (a b c d e f : R)
| ClearRect (x0 y0 cw ch : R)
| SetStrokeStyle (s : Style)
| SetLineWidth (lw : R)
| SetFillStyle (s : Style)
| BeginPath
| MoveTo (px py : R)
| LineTo (px py : R)
| Stroke
| Arc (cx cy radius a0 a1 : R)
| Fill
| RequestAnimationFrame (handle : nat)
| CancelAnimationFrame (handle : nat)
| Observe
| Disconnect.

(** What the code reads from the browser and never writes. *)
Record Env := mkEnv {
  devicePixelRatio : option R;     (* [None]: the property is undefined *)
  innerWidth : N;
  innerHeight : N;
  clientWidth : N;                 (* content box of the canvas element *)
  clientHeight : N;
  random : nat -> R                (* successive results of Math.random() *)
}.

#[projections(primitive)]
Record World := mkWorld {
  env : Env;
  (* host objects *)
  canvas_width : Z;
  canvas_height : Z;
  log : list Call;
  raf_callbacks : list nat;        (* handles of the pending [step] requests *)
  raf_last : nat;                  (* last handle handed out *)
  ro_observing : bool;
  rng_pos : nat;                   (* number of Math.random() calls so far *)
  (* variables of the effect closure *)
  dpi : R;
  w : R;
  h : R;
  particles : list Particle;
  rafRef : nat
}.

Definition with_env (s : World) (e : Env) : World :=
  mkWorld e (canvas_width s) (canvas_height s) (log s) (raf_callbacks s)
    (raf_last s) (ro_observing s) (rng_pos s) (dpi s) (w s) (h s)
    (particles s) (rafRef s).
Definition with_canvas_width (s : World) (n : Z) : World :=
  mkWorld (env s) n (canvas_height s) (log s) (raf_callbacks s)
    (raf_last s) (ro_observing s) (rng_pos s) (dpi s) (w s) (h s)
    (particles s) (rafRef s).
Definition with_canvas_height (s : World) (n : Z) : World :=
  mkWorld (env s) (canvas_width s) n (log s) (raf_callbacks s)
    (raf_last s) (ro_observing s) (rng_pos s) (dpi s) (w s) (h s)
    (particles s) (rafRef s).
Definition with_log (s : World) (l : list Call) : World :=
  mkWorld (env s) (canvas_width s) (canvas_height s) l (raf_callbacks s)
    (raf_last s) (ro_observing s) (rng_pos s) (dpi s) (w s) (h s)
    (particles s) (rafRef s).
Definition with_raf (s : World) (cbs : list nat) (last : nat) : World :=
  mkWorld (env s) (canvas_width s) (canvas_height s) (log s) cbs
    last (ro_observing s) (rng_pos s) (dpi s) (w s) (h s)
    (particles s) (rafRef s).
Definition with_observing (s : World) (b : bool) : World :=
  mkWorld (env s) (canvas_width s) (canvas_height s) (log s) (raf_callbacks s)
    (raf_last s) b (rng_pos s) (dpi s) (w s) (h s)
    (particles s) (rafRef s).
Definition with_rng_pos (s : World) (n : nat) : World :=
  mkWorld (env s) (canvas_width s) (canvas_height s) (log s) (raf_callbacks s)
    (raf_last s) (ro_observing s) n (dpi s) (w s) (h s)
    (particles s) (rafRef s).
Definition with_dpi (s : World) (v : R) : World :=
  mkWorld (env s) (canvas_width s) (canvas_height s) (log s) (raf_callbacks s)
    (raf_last s) (ro_observing s) (rng_pos s) v (w s) (h s)
    (particles s) (rafRef s).
Definition with_w (s : World) (v : R) : World :=
  mkWorld (env s) (canvas_width s) (canvas_height s) (log s) (raf_callbacks s)
    (raf_last s) (ro_observing s) (rng_pos s) (dpi s) v (h s)
    (particles s) (rafRef s).
Definition with_h (s : World) (v : R) : World :=
  mkWorld (env s) (canvas_width s) (canvas_height s) (log s) (raf_callbacks s)
    (raf_last s) (ro_observing s) (rng_pos s) (dpi s) (w s) v
    (particles s) (rafRef s).
Definition with_particles (s : World) (ps : list Particle) : World :=
  mkWorld (env s) (canvas_width s) (canvas_height s) (log s) (raf_callbacks s)
    (raf_last s) (ro_observing s) (rng_pos s) (dpi s) (w s) (h s)
    ps (rafRef s).
Definition with_rafRef (s : World) (n : nat) : World :=
  mkWorld (env s) (canvas_width s) (canvas_height s) (log s) (raf_callbacks s)
    (raf_last s) (ro_observing s) (rng_pos s) (dpi s) (w s) (h s)
    (particles s) n.

(** ** The monad *)

Definition M (A : Type) : Type := World -> option (A * World).

Definition ret {A} (a : A) : M A := fun s => Some (a, s).

Definition bind {A B} (m : M A) (k : A -> M B) : M B :=
  fun s => match m s with
           | Some (a, s') => k a s'
           | None => None
           end.

Notation "'let*' v := m 'in' k" := (bind m (fun v => k))
  (at level 10, v name, m at level 100, k at level 200).
Notation "m ;; k" := (bind m (fun _ => k))
  (at level 100, k at level 200, right associativity).

Definition get : M World := fun s => Some (s, s).
Definition modify (f : World -> World) : M unit := fun s => Some (tt, f s).

(** [for (let i = start; i < start + n; i++) body(i)] *)
Fixpoint for_range (i n : nat) (body : nat -> M unit) : M unit :=
  match n with
  | O => ret tt
  | S n' => body i ;; for_range (S i) n' body
  end.

(** ** Host primitives *)

Definition call (c : Call) : M unit :=
  modify (fun s => with_log s (log s ++ [c])).

Definition Math_random : M R :=
  fun s => Some (random (env s) (rng_pos s), with_rng_pos s (S (rng_pos s))).

Definition Math_floor (v : R) : Z := Int_part v.

Definition Math_hypot (a b : R) : R := sqrt (a * a + b * b).

(** [v || 1] on a possibly undefined number: undefined and 0 are falsy. *)
Definition or_one (v : option R) : R :=
  match v with
  | None => 1
  | Some d => if Req_dec_T d 0 then 1 else d
  end.

(** The browser hands out increasing handles and queues the callback. *)
Definition requestAnimationFrame : M nat :=
  fun s => let hd := S (raf_last s) in
           Some (hd, with_log (with_raf s (raf_callbacks s ++ [hd]) hd)
                              (log s ++ [RequestAnimationFrame hd])).

Definition cancelAnimationFrame (hd : nat) : M unit :=
  fun s => Some (tt, with_log
                       (with_raf s (filter (fun k => k ≠ hd) (raf_callbacks s))
                                 (raf_last s))
                       (log s ++ [CancelAnimationFrame hd])).

Definition ro_observe : M unit :=
  fun s => Some (tt, with_log (with_observing s true) (log s ++ [Observe])).

Definition ro_disconnect : M unit :=
  fun s => Some (tt, with_log (with_observing s false) (log s ++ [Disconnect])).

(** [particles[i]]; reading a field of an absent element throws. *)
Definition particle_at (i : nat) : M Particle :=
  fun s => match particles s !! i with
           | Some p => Some (p, s)
           | None => None
           end.

(** The objects of the array are mutated in place. *)
Definition store_particle (i : nat) (p : Particle) : M unit :=
  modify (fun s => with_particles s (<[i := p]> (particles s))).

(** [canvas.width = n] and [canvas.height = n] *)
Definition set_canvas_width (n : Z) : M unit :=
  modify (fun s => with_log (with_canvas_width s n) (log s ++ [SetCanvasWidth n])).
Definition set_canvas_height (n : Z) : M unit :=
  modify (fun s => with_log (with_canvas_height s n) (log s ++ [SetCanvasHeight n])).

(** [p.x = f(p)] and [p.y = f(p)] on the object held at index [k]. *)
Definition assign_x (k : nat) (f : Particle -> R) : M unit :=
  let* p := particle_at k in store_particle k (set_x p (f p)).
Definition assign_y (k : nat) (f : Particle -> R) : M unit :=
  let* p := particle_at k in store_particle k (set_y p (f p)).

(** [if (c) body] *)
Definition when (c : bool) (body : M unit) : M unit :=
  if c then body else ret tt.

Definition Rltb (a b : R) : bool := if Rlt_dec a b then true else false.

(** ** The component *)

Module BackgroundAnimation.

(** [function resize()] *)
Definition resize : M unit :=
  let* s := get in
  modify (fun s' => with_w s' (IZR (Z.of_N (clientWidth (env s))))) ;;
  modify (fun s' => with_h s' (IZR (Z.of_N (clientHeight (env s))))) ;;
  let* s := get in
  set_canvas_width (Math_floor (w s * dpi s)) ;;
  set_canvas_height (Math_floor (h s * dpi s)) ;;
  call (SetTransform (dpi s) 0 0 (dpi s) 0 0).

(** The callback given to [Array.from]: five draws, in field order. *)
Definition new_particle : M Particle :=
  let* s := get in
  let* u1 := Math_random in
  let* u2 := Math_random in
  let* u3 := Math_random in
  let* u4 := Math_random in
  let* u5 := Math_random in
  ret {| x := u1 * IZR (Z.of_N (innerWidth (env s)));
         y := u2 * IZR (Z.of_N (innerHeight (env s)));
         vx := (u3 - 0.5) * 0.25;
         vy := (u4 - 0.5) * 0.25;
         r := 1.2 + u5 * 1.8 |}.

(** [Array.from({ length: n }, f)] calls [f] for the indices in order. *)
Fixpoint Array_from (n : nat) (f : M Particle) : M (list Particle) :=
  match n with
  | O => ret []
  | S n' => let* p := f in
            let* ps := Array_from n' f in
            ret (p :: ps)
  end.

(** Body of the inner link loop, for the pair of indices [(i, j)]. *)
Definition link_body (p : Particle) (j : nat) : M unit :=
  let* q := particle_at j in
  let dx := x p - x q in
  let dy := y p - y q in
  let dist := Math_hypot dx dy in
  when (Rltb dist 120)
    (let alpha := (1 - dist / 120) * 0.35 in
     call (SetStrokeStyle (Solid (rgba 0 194 255 alpha))) ;;
     call (SetLineWidth 1) ;;
     call BeginPath ;;
     call (MoveTo (x p) (y p)) ;;
     call (LineTo (x q) (y q)) ;;
     call Stroke).

(** Body of the particle loop, for the object at index [k]. *)
Definition particle_body (k : nat) : M unit :=
  assign_x k (fun p => x p + vx p) ;;
  assign_y k (fun p => y p + vy p) ;;
  let* s := get in
  (let* p := particle_at k in
   when (Rltb (x p) (-20)) (assign_x k (fun _ => w s + 20))) ;;
  (let* p := particle_at k in
   when (Rltb (w s + 20) (x p)) (assign_x k (fun _ => -20))) ;;
  (let* p := particle_at k in
   when (Rltb (y p) (-20)) (assign_y k (fun _ => h s + 20))) ;;
  (let* p := particle_at k in
   when (Rltb (h s + 20) (y p)) (assign_y k (fun _ => -20))) ;;
  let* p := particle_at k in
  let grd := createRadialGradient (x p) (y p) 0 (x p) (y p) 16 in
  let grd := addColorStop grd 0 (rgba 124 58 237 0.55) in
  let grd := addColorStop grd 1 (rgba 124 58 237 0) in
  call (SetFillStyle (Radial grd)) ;;
  call BeginPath ;;
  call (Arc (x p) (y p) (r p * 5) 0 (PI * 2)) ;;
  call Fill ;;
  call (SetFillStyle (Solid (rgba 0 194 255 0.9))) ;;
  call BeginPath ;;
  call (Arc (x p) (y p) (r p) 0 (PI * 2)) ;;
  call Fill.

(** [function step()].  The array is never resized, so [particles.length]
    is read once per loop. *)
Definition step : M unit :=
  let* s := get in
  call (ClearRect 0 0 (w s) (h s)) ;;
  let n := length (particles s) in
  for_range 0 n (fun i =>
    let* p := particle_at i in
    for_range (i + 1) (n - (i + 1)) (link_body p)) ;;
  for_range 0 n particle_body ;;
  let* hd := requestAnimationFrame in
  modify (fun s' => with_rafRef s' hd).

(** The function returned by the effect. *)
Definition cleanup : M unit :=
  let* s := get in
  cancelAnimationFrame (rafRef s) ;;
  ro_disconnect.

(** The effect passed to [useEffect], run once when the component mounts:
    [setup] is its body up to the first call of [step]. *)
Definition setup : M unit :=
  let* s := get in
  modify (fun s' => with_dpi s' (Rmax 1 (or_one (devicePixelRatio (env s))))) ;;
  modify (fun s' => with_h (with_w s' 0) 0) ;;
  let* ps := Array_from 36 new_particle in
  modify (fun s' => with_particles s' ps) ;;
  ro_observe ;;
  resize.

Definition effect : M unit :=
  setup ;;
  step.

End BackgroundAnimation.

Import BackgroundAnimation.

(** ** The browser around the component *)

(** A freshly created canvas is 300 by 150; [useRef(0)] initialises
    [rafRef.current]. *)
Definition initial_world (e : Env) : World :=
  mkWorld e 300 150 [] [] 0 false 0 0 0 0 [] 0.

Definition exec {A} (m : M A) (s : World) : option World :=
  match m s with
  | Some (_, s') => Some s'
  | None => None
  end.

Definition mount (e : Env) : option World := exec effect (initial_world e).

(** Running the frame callbacks: the pending list is taken and emptied, then
    each callback (always [step]) is invoked. *)
Fixpoint invoke_all (cbs : list nat) : M unit :=
  match cbs with
  | [] => ret tt
  | _ :: rest => step ;; invoke_all rest
  end.

Definition run_animation_frame : M unit :=
  let* s := get in
  modify (fun s' => with_raf s' [] (raf_last s')) ;;
  invoke_all (raf_callbacks s).

Inductive Event :=
| LayoutChange (cw ch : N)                       (* the content box changes *)
| WindowChange (iw ih : N) (dpr : option R)      (* window size, pixel ratio *)
| ResizeNotification                             (* the observer delivers *)
| AnimationFrame                                 (* the browser runs a frame *)
| Unmount.                                       (* React runs the cleanup *)

Definition handle (ev : Event) : M unit :=
  match ev with
  | LayoutChange cw ch =>
      modify (fun s =>
        with_env s (mkEnv (devicePixelRatio (env s)) (innerWidth (env s))
                          (innerHeight (env s)) cw ch (random (env s))))
  | WindowChange iw ih dpr =>
      modify (fun s =>
        with_env s (mkEnv dpr iw ih (clientWidth (env s))
                          (clientHeight (env s)) (random (env s))))
  | ResizeNotification =>
      let* s := get in
      when (ro_observing s) resize
  | AnimationFrame => run_animation_frame
  | Unmount => cleanup
  end.

Fixpoint run (evs : list Event) (s : World) : option World :=
  match evs with
  | [] => Some s
  | ev :: rest =>
      match exec (handle ev) s with
      | Some s' => run rest s'
      | None => None
      end
  end.

(** ** Pure descriptions of what one frame does *)

(** The six position statements of the particle loop, on one particle. *)
Definition advance (w h : R) (p : Particle) : Particle :=
  let p := set_x p (x p + vx p) in
  let p := set_y p (y p + vy p) in
  let p := if Rltb (x p) (-20) then set_x p (w + 20) else p in
  let p := if Rltb (w + 20) (x p) then set_x p (-20) else p in
  let p := if Rltb (y p) (-20) then set_y p (h + 20) else p in
  let p := if Rltb (h + 20) (y p) then set_y p (-20) else p in
  p.

(** The gradient built for a particle drawn at its current position. *)
Definition glow (p : Particle) : Gradient :=
  mkGradient (x p) (y p) 0 (x p) (y p) 16
    [(0, rgba 124 58 237 0.55); (1, rgba 124 58 237 0)].

(** The calls that draw one particle. *)
Definition disc_calls (p : Particle) : list Call :=
  [ SetFillStyle (Radial (glow p)); BeginPath;
    Arc (x p) (y p) (r p * 5) 0 (PI * 2); Fill;
    SetFillStyle (Solid (rgba 0 194 255 0.9)); BeginPath;
    Arc (x p) (y p) (r p) 0 (PI * 2); Fill ].

Definition distance (p q : Particle) : R :=
  sqrt ((x p - x q) * (x p - x q) + (y p - y q) * (y p - y q)).

Definition link_alpha (p q : Particle) : R := (1 - distance p q / 120) * 0.35.

(** The calls that stroke the link from [p] to [q]. *)
Definition stroke_link (p q : Particle) : list Call :=
  [ SetStrokeStyle (Solid (rgba 0 194 255 (link_alpha p q)));
    SetLineWidth 1; BeginPath;
    MoveTo (x p) (y p); LineTo (x q) (y q); Stroke ].

Definition link_calls (p q : Particle) : list Call :=
  if Rltb (distance p q) 120 then stroke_link p q else [].

(** Links in the order of the nested loops: each particle against the
    particles after it in the array. *)
Fixpoint links_of (ps : list Particle) : list Call :=
  match ps with
  | [] => []
  | p :: rest => flat_map (link_calls p) rest ++ links_of rest
  end.

(** The world a call of [step] leaves behind. *)
Definition after_step (s : World) : World :=
  let ps := map (advance (w s) (h s)) (particles s) in
  let hd := S (raf_last s) in
  mkWorld (env s) (canvas_width s) (canvas_height s)
    (log s ++ [ClearRect 0 0 (w s) (h s)] ++ links_of (particles s)
           ++ flat_map disc_calls ps ++ [RequestAnimationFrame hd])
    (raf_callbacks s ++ [hd]) hd (ro_observing s) (rng_pos s)
    (dpi s) (w s) (h s) ps hd.

(** The world a call of [resize] leaves behind. *)
Definition after_resize (s : World) : World :=
  let cw := IZR (Z.of_N (clientWidth (env s))) in
  let ch := IZR (Z.of_N (clientHeight (env s))) in
  mkWorld (env s) (Math_floor (cw * dpi s)) (Math_floor (ch * dpi s))
    (log s ++ [SetCanvasWidth (Math_floor (cw * dpi s));
               SetCanvasHeight (Math_floor (ch * dpi s));
               SetTransform (dpi s) 0 0 (dpi s) 0 0])
    (raf_callbacks s) (raf_last s) (ro_observing s) (rng_pos s)
    (dpi s) cw ch (particles s) (rafRef s).

(** The particle built from the five draws starting at draw [k]. *)
Definition particle_from (e : Env) (k : nat) : Particle :=
  {| x := random e k * IZR (Z.of_N (innerWidth e));
     y := random e (S k) * IZR (Z.of_N (innerHeight e));
     vx := (random e (S (S k)) - 0.5) * 0.25;
     vy := (random e (S (S (S k))) - 0.5) * 0.25;
     r := 1.2 + random e (S (S (S (S k)))) * 1.8 |}.

Fixpoint initial_particles (e : Env) (k n : nat) : list Particle :=
  match n with
  | O => []
  | S n' => particle_from e k :: initial_particles e (5 + k) n'
  end.

(** The world at the point of the effect where [step()] is first called. *)
Definition before_first_step (e : Env) : World :=
  after_resize
    (mkWorld e 300 150 [Observe] [] 0 true 180
       (Rmax 1 (or_one (devicePixelRatio e))) 0 0
       (initial_particles e 0 36) 0).

Definition after_effect (e : Env) : World := after_step (before_first_step e).

Definition after_cleanup (s : World) : World :=
  mkWorld (env s) (canvas_width s) (canvas_height s)
    (log s ++ [CancelAnimationFrame (rafRef s); Disconnect])
    (filter (fun k => k ≠ rafRef s) (raf_callbacks s)) (raf_last s)
    false (rng_pos s) (dpi s) (w s) (h s) (particles s) (rafRef s).

Definition after_frame (s : World) : World :=
  fold_left (fun s' _ => after_step s') (raf_callbacks s)
            (with_raf s [] (raf_last s)).

Definition after_event (ev : Event) (s : World) : World :=
  match ev with
  | LayoutChange cw ch =>
      with_env s (mkEnv (devicePixelRatio (env s)) (innerWidth (env s))
                        (innerHeight (env s)) cw ch (random (env s)))
  | WindowChange iw ih dpr =>
      with_env s (mkEnv dpr iw ih (clientWidth (env s))
                        (clientHeight (env s)) (random (env s)))
  | ResizeNotification => if ro_observing s then after_resize s else s
  | AnimationFrame => after_frame s
  | Unmount => after_cleanup s
  end.

Definition after_events (evs : list Event) (s : World) : World :=
  fold_left (fun s' ev => after_event ev s') evs s.

(** ** Vocabulary of the properties *)

(** One coordinate after the two wrap tests against [limit]. *)
Definition wrap (limit v : R) : R :=
  let v := if Rltb v (-20) then limit + 20 else v in
  if Rltb (limit + 20) v then -20 else v.

(** The surface extended by the 20-unit margin. *)
Definition in_box (bw bh : R) (p : Particle) : Prop :=
  -20 <= x p <= bw + 20 /\ -20 <= y p <= bh + 20.

(** A small world used to run single frames by hand: a 100 by 50 surface
    at ratio 1 holding one particle at rest. *)
Definition env_one : Env := mkEnv (Some 1) 1000 800 100 50 (fun _ => 0.5).

Definition world_one : World :=
  mkWorld env_one 100 50 [] [] 0 true 0 1 100 50
    [ {| x := 10; y := 10; vx := 0; vy := 0; r := 2 |} ] 0.

(** What a particle keeps for its whole life. *)
Definition kinematics (p : Particle) : R * R * R := (vx p, vy p, r p).

(** At most one frame request is pending, and [rafRef] holds its handle. *)
Definition pending_ok (s : World) : Prop :=
  raf_callbacks s = [] \/ raf_callbacks s = [rafRef s].

(** Nothing is pending and the observer is detached. *)
Definition torn_down (s : World) : Prop :=
  raf_callbacks s = [] /\ ro_observing s = false.

(** The host calls an event makes once the component is torn down. *)
Definition calls_when_torn_down (s : World) (ev : Event) : list Call :=
  match ev with
  | Unmount => [CancelAnimationFrame (rafRef s); Disconnect]
  | _ => []
  end.

(** The index pairs [(i, j)] with [i < j < n], in the order of the nested
    pattern: [i] ascending, and for each [i] the [j] after it ascending. *)
Definition unordered_pairs (n : nat) : list (nat * nat) :=
  flat_map (fun i => map (pair i) (seq (S i) (n - S i))) (seq 0 n).

(** What the link phase draws for the pair of indices [ij]. *)
Definition pair_link (ps : list Particle) (ij : nat * nat) : list Call :=
  match ps !! fst ij, ps !! snd ij with
  | Some p, Some q => link_calls p q
  | _, _ => []
  end.

(** Distance from the centre at which a colour stop of a gradient between
    two concentric circles sits: offset 0 is the start circle, offset 1 the
    end circle. *)
Definition stop_radius (g : Gradient) (offset : R) : R :=
  g_r0 g + offset * (g_r1 g - g_r0 g).

(** The gradient has a fully transparent stop at distance [radius]. *)
Definition transparent_at (g : Gradient) (radius : R) : Prop :=
  exists offset c,
    In (offset, c) (g_stops g) /\ alpha c = 0 /\ stop_radius g offset = radius.

(** A mount at ratio 1 on an 800 by 600 box, after which the window moves
    to a ratio-2 display and the box shrinks to 400 by 300. *)
Definition env_ratio_1 : Env := mkEnv (Some 1) 1280 720 800 600 (fun _ => 0.5).

Definition to_ratio_2_and_shrink : list Event :=
  [WindowChange 1280 720 (Some 2); LayoutChange 400 300; ResizeNotification].

(** The same box change after a mount at ratio 2. *)
Definition env_ratio_2 : Env := mkEnv (Some 2) 1280 720 800 600 (fun _ => 0.5).

Definition shrink : list Event := [LayoutChange 400 300; ResizeNotification].

(** A mount at ratio 0.5, below the floor of 1 on the scale factor. *)
Definition env_ratio_half : Env :=
  mkEnv (Some 0.5) 1280 720 800 600 (fun _ => 0.5).

(** A mount at ratio 1.5, after which the box becomes 401 by 301: the
    products 601.5 and 451.5 are not whole numbers of pixels. *)
Definition env_ratio_3_2 : Env :=
  mkEnv (Some 1.5) 1280 720 800 600 (fun _ => 0.5).

Definition to_odd_box : list Event :=
  [LayoutChange 401 301; ResizeNotification].



(** ** Vocabulary of the further properties *)

(** The cleanup does not occur in the event sequence. *)
Definition no_unmount (evs : list Event) : bool :=
  forallb (fun ev => match ev with Unmount => false | _ => true end) evs.

(** Number of animation frames in the event sequence. *)
Definition frames (evs : list Event) : nat :=
  length (List.filter
            (fun ev => match ev with AnimationFrame => true | _ => false end)
            evs).

Definition count_calls (f : Call -> bool) (l : list Call) : nat :=
  length (List.filter f l).

Definition is_clear (c : Call) : bool :=
  match c with ClearRect _ _ _ _ => true | _ => false end.

Definition is_stroke (c : Call) : bool :=
  match c with Stroke => true | _ => false end.

Definition is_fill (c : Call) : bool :=
  match c with Fill => true | _ => false end.

Definition is_request (c : Call) : bool :=
  match c with RequestAnimationFrame _ => true | _ => false end.

(** The loop is running: exactly one frame request is pending, [rafRef]
    holds its handle, which is the last one handed out, and the observer is
    attached. *)
Definition live (s : World) : Prop :=
  raf_callbacks s = [rafRef s] /\ raf_last s = rafRef s /\
  ro_observing s = true.

(** A stroke style is the link colour at an opacity in (0, 0.35]; calls
    other than [strokeStyle] assignments are not constrained. *)
Definition stroke_style_ok (c : Call) : Prop :=
  match c with
  | SetStrokeStyle (Solid col) =>
      red col = 0%Z /\ green col = 194%Z /\ blue col = 255%Z /\
      0 < alpha col <= 0.35
  | SetStrokeStyle (Radial _) => False
  | _ => True
  end.

(** The pixel ratio is undefined or at most 1 (0 and negative included). *)
Definition ratio_at_most_one (v : option R) : Prop :=
  match v with
  | None => True
  | Some d => d <= 1
  end.

(** The ranges particles are created in; the upper end of the radius is
    included, since rounding can reach it. *)
Definition in_creation_ranges (p : Particle) : Prop :=
  -0.125 <= vx p < 0.125 /\ -0.125 <= vy p < 0.125 /\ 1.2 <= r p <= 3.

(** An environment where the pixel ratio is not defined. *)
Definition env_no_ratio : Env := mkEnv None 1280 720 800 600 (fun _ => 0.5).

(** A running world with one particle drifting right by 0.1 per frame. *)
Definition world_drift : World :=
  mkWorld env_one 100 50 [] [1%nat] 1 true 0 1 100 50
    [ {| x := 10; y := 10; vx := 0.1; vy := 0; r := 2 |} ] 1.

(** ** The presentational components

    [Button] (beside [BackgroundAnimation] in its source file), the [Card]
    family with [Badge], and [Input].  Class names are strings; the CSS
    module objects [styles] are records of strings; the children and the
    remaining props a caller passes are opaque values handed on as they
    are. *)

(** [l.join(sep)] on an array of strings. *)
Definition join (sep : string) (l : list string) : string :=
  String.concat sep l.

(** A JSX attribute: a string-valued one, one holding a caller's value, or
    the spread of the remaining props. *)
Inductive Attr (V : Type) :=
| Str (name : string) (value : string)
| Val (name : string) (value : V)
| Spread (props : V).

(** An element with its attributes in source order, or the children the
    caller passed. *)
#[warnings="-register-all"]
Inductive Node (V : Type) :=
| Elem (tag : string) (attrs : list (Attr V)) (children : list (Node V))
| Slot (children : V).

Arguments Str {V} name value.
Arguments Val {V} name value.
Arguments Spread {V} props.
Arguments Elem {V} tag attrs children.
Arguments Slot {V} children.

Module ButtonCss.
Record styles := mk { root : string; primary : string; cta : string }.
End ButtonCss.

Module CardCss.
Record styles := mk { card : string; panel : string; item : string }.
End CardCss.

Module BadgeCss.
Record styles := mk { badge : string }.
End BadgeCss.

Module InputCss.
Record styles := mk { wrap : string; input : string }.
End InputCss.

(** Truthiness of a string: the empty string is falsy. *)
Definition truthy (s : string) : bool := negb (String.eqb s "").

(** [Button({ children, variant, cta, className, ...props })], defaults
    applied by the caller of this function: ['default'], [false], ['']. *)
Definition Button {V} (styles : ButtonCss.styles)
    (children : V) (variant : string) (cta : bool) (className : string)
    (props : V) : Node V :=
  let classes := [ButtonCss.root styles] in
  let classes := if String.eqb variant "primary"
                 then classes ++ [ButtonCss.primary styles] else classes in
  let classes := if cta then classes ++ [ButtonCss.cta styles] else classes in
  let classes := if truthy className then classes ++ [className] else classes in
  Elem "button" [Str "className" (join " " classes); Spread props]
       [Slot children].

Definition Card {V} (styles : CardCss.styles)
    (children : V) (className : string) (props : V) : Node V :=
  Elem "div"
       [Str "className" (join " " [CardCss.card styles; className]);
        Spread props]
       [Slot children].

Definition CardPanel {V} (styles : CardCss.styles)
    (children : V) (className : string) (props : V) : Node V :=
  Elem "div"
       [Str "className"
            (join " " [CardCss.card styles; CardCss.panel styles; className]);
        Spread props]
       [Slot children].

Definition CardItem {V} (styles : CardCss.styles)
    (children : V) (className : string) (props : V) : Node V :=
  Elem "div"
       [Str "className"
            (join " " [CardCss.card styles; CardCss.item styles; className]);
        Spread props]
       [Slot children].

Definition Badge {V} (styles : BadgeCss.styles)
    (children : V) (className : string) (props : V) : Node V :=
  Elem "span"
       [Str "className" (join " " [BadgeCss.badge styles; className]);
        Spread props]
       [Slot children].

Definition Input {V} (styles : InputCss.styles)
    (value onChange placeholder : V) (className : string) (props : V)
    : Node V :=
  Elem "div"
       [Str "className" (join " " [InputCss.wrap styles; className])]
       [Elem "input"
             [Str "className" (InputCss.input styles);
              Val "value" value; Val "onChange" onChange;
              Val "placeholder" placeholder; Spread props]
             []].

(** The value of the [className] attribute of an element, if it has one. *)
Fixpoint class_attr {V} (attrs : list (Attr V)) : option string :=
  match attrs with
  | [] => None
  | Str name value :: rest =>
      if String.eqb name "className" then Some value else class_attr rest
  | _ :: rest => class_attr rest
  end.

Definition class_of {V} (n : Node V) : option string :=
  match n with
  | Elem _ attrs _ => class_attr attrs
  | Slot _ => None
  end.

(** ASCII whitespace, as the browser splits a class attribute: tab, line
    feed, form feed, carriage return, space. *)
Definition is_space (c : Ascii.ascii) : bool :=
  match Ascii.nat_of_ascii c with
  | 9%nat | 10%nat | 12%nat | 13%nat | 32%nat => true
  | _ => false
  end.

Definition flush (cur : string) : list string :=
  if String.eqb cur "" then [] else [cur].

(** The class tokens of a class attribute: its maximal runs of characters
    that are not whitespace, [cur] being the run read so far. *)
Fixpoint tokens_from (cur : string) (s : string) : list string :=
  match s with
  | EmptyString => flush cur
  | String c rest =>
      if is_space c then flush cur ++ tokens_from "" rest
      else tokens_from (cur +:+ String c "") rest
  end.

Definition tokens (s : string) : list string := tokens_from "" s.

Fixpoint no_space (s : string) : bool :=
  match s with
  | EmptyString => true
  | String c rest => negb (is_space c) && no_space rest
  end.

(** A well-formed class name: not empty, no whitespace. *)
Definition class_name (s : string) : bool := truthy s && no_space s.

(** ** Running the code *)

(** Reduce the monad and the record updates, leaving numbers alone. *)
Ltac run_monad :=
  cbv [bind ret get modify call when set_canvas_width set_canvas_height
       with_env with_canvas_width with_canvas_height with_log with_raf
       with_observing with_rng_pos with_dpi with_w with_h with_particles
       with_rafRef env canvas_width canvas_height log raf_callbacks raf_last
       ro_observing rng_pos dpi w h particles rafRef].

Lemma bind_some {A B} (m : M A) (k : A -> M B) s a s' :
  m s = Some (a, s') -> bind m k s = k a s'.
Proof. intros E. unfold bind. now rewrite E. Qed.

Lemma for_range_S i n body s s' :
  body i s = Some (tt, s') ->
  for_range i (S n) body s = for_range (S i) n body s'.
Proof. intros E. cbn. now rewrite (bind_some _ _ _ _ _ E). Qed.

Lemma lookup_middle {A} (l1 l2 : list A) (a : A) :
  (l1 ++ a :: l2) !! length l1 = Some a.
Proof. apply list_lookup_middle. reflexivity. Qed.

Lemma insert_middle {A} (l1 l2 : list A) (a b : A) :
  <[length l1 := b]> (l1 ++ a :: l2) = l1 ++ b :: l2.
Proof.
  rewrite <- (Nat.add_0_r (length l1)). now rewrite insert_app_r.
Qed.

Lemma resize_spec s : resize s = Some (tt, after_resize s).
Proof.
  unfold resize, after_resize. run_monad.
  rewrite <- !app_assoc. reflexivity.
Qed.

Lemma with_particles_id s : with_particles s (particles s) = s.
Proof. now destruct s. Qed.

Lemma particle_at_spec s front p back :
  particles s = front ++ p :: back ->
  particle_at (length front) s = Some (p, s).
Proof. intros E. unfold particle_at. now rewrite E, lookup_middle. Qed.

Lemma assign_x_spec s front p back f :
  particles s = front ++ p :: back ->
  assign_x (length front) f s =
    Some (tt, with_particles s (front ++ set_x p (f p) :: back)).
Proof.
  intros E. unfold assign_x.
  rewrite (bind_some _ _ _ _ _ (particle_at_spec _ _ _ _ E)).
  unfold store_particle, modify. now rewrite E, insert_middle.
Qed.

Lemma assign_y_spec s front p back f :
  particles s = front ++ p :: back ->
  assign_y (length front) f s =
    Some (tt, with_particles s (front ++ set_y p (f p) :: back)).
Proof.
  intros E. unfold assign_y.
  rewrite (bind_some _ _ _ _ _ (particle_at_spec _ _ _ _ E)).
  unfold store_particle, modify. now rewrite E, insert_middle.
Qed.

Lemma when_x_spec s front p back (c : Particle -> bool) v :
  particles s = front ++ p :: back ->
  (let* q := particle_at (length front) in
   when (c q) (assign_x (length front) (fun _ => v))) s =
    Some (tt, with_particles s
                (front ++ (if c p then set_x p v else p) :: back)).
Proof.
  intros E. rewrite (bind_some _ _ _ _ _ (particle_at_spec _ _ _ _ E)).
  unfold when. destruct (c p).
  - now apply assign_x_spec.
  - unfold ret. now rewrite <- E, with_particles_id.
Qed.

Lemma when_y_spec s front p back (c : Particle -> bool) v :
  particles s = front ++ p :: back ->
  (let* q := particle_at (length front) in
   when (c q) (assign_y (length front) (fun _ => v))) s =
    Some (tt, with_particles s
                (front ++ (if c p then set_y p v else p) :: back)).
Proof.
  intros E. rewrite (bind_some _ _ _ _ _ (particle_at_spec _ _ _ _ E)).
  unfold when. destruct (c p).
  - now apply assign_y_spec.
  - unfold ret. now rewrite <- E, with_particles_id.
Qed.

Tactic Notation "exec_with" uconstr(lem) :=
  erewrite bind_some; [ | eapply lem; cbn; reflexivity ].

Lemma particle_body_spec s front p back :
  particles s = front ++ p :: back ->
  particle_body (length front) s =
    Some (tt, with_log
                (with_particles s (front ++ advance (w s) (h s) p :: back))
                (log s ++ disc_calls (advance (w s) (h s) p))).
Proof.
  intros E. unfold particle_body.
  rewrite (bind_some _ _ _ _ _ (assign_x_spec _ _ _ _ _ E)).
  exec_with assign_y_spec.
  erewrite bind_some; [ | reflexivity ].
  exec_with (when_x_spec _ front _ back (fun q => Rltb (x q) (-20))).
  exec_with (when_x_spec _ front _ back (fun q => Rltb (w s + 20) (x q))).
  exec_with (when_y_spec _ front _ back (fun q => Rltb (y q) (-20))).
  exec_with (when_y_spec _ front _ back (fun q => Rltb (h s + 20) (y q))).
  exec_with particle_at_spec.
  unfold advance. run_monad. rewrite <- !app_assoc. reflexivity.
Qed.

Lemma with_log_id s : with_log s (log s) = s.
Proof. now destruct s. Qed.

Lemma particle_loop_spec rest : forall front s,
  particles s = front ++ rest ->
  for_range (length front) (length rest) particle_body s =
    Some (tt, with_log
                (with_particles s (front ++ map (advance (w s) (h s)) rest))
                (log s ++ flat_map disc_calls (map (advance (w s) (h s)) rest))).
Proof.
  induction rest as [|p rest IH]; intros front s E.
  - rewrite app_nil_r in E. cbn. rewrite !app_nil_r, <- E. unfold ret.
    now rewrite with_particles_id, with_log_id.
  - cbn [length]. erewrite for_range_S by (eapply particle_body_spec, E).
    replace (S (length front)) with (length (front ++ [advance (w s) (h s) p]))
      by (rewrite length_app; cbn; lia).
    rewrite IH by (cbn; now rewrite <- app_assoc).
    cbn [map flat_map]. run_monad. now rewrite <- !app_assoc.
Qed.

Lemma link_body_spec p s front q back :
  particles s = front ++ q :: back ->
  link_body p (length front) s = Some (tt, with_log s (log s ++ link_calls p q)).
Proof.
  intros E. unfold link_body.
  rewrite (bind_some _ _ _ _ _ (particle_at_spec _ _ _ _ E)).
  unfold link_calls, distance, Math_hypot, when.
  destruct (Rltb _ 120).
  - unfold stroke_link, link_alpha, distance. run_monad.
    now rewrite <- !app_assoc.
  - unfold ret. now rewrite app_nil_r, with_log_id.
Qed.

Lemma link_inner_spec p rest : forall front s,
  particles s = front ++ rest ->
  for_range (length front) (length rest) (link_body p) s =
    Some (tt, with_log s (log s ++ flat_map (link_calls p) rest)).
Proof.
  induction rest as [|q rest IH]; intros front s E.
  - cbn. unfold ret. now rewrite app_nil_r, with_log_id.
  - cbn [length]. erewrite for_range_S by (eapply link_body_spec, E).
    replace (S (length front)) with (length (front ++ [q]))
      by (rewrite length_app; cbn; lia).
    rewrite IH by (cbn; now rewrite <- app_assoc).
    cbn [flat_map]. run_monad. now rewrite <- !app_assoc.
Qed.

Lemma link_outer_spec n rest : forall front s,
  particles s = front ++ rest ->
  n = (length front + length rest)%nat ->
  for_range (length front) (length rest)
    (fun i => let* p := particle_at i in
              for_range (i + 1) (n - (i + 1)) (link_body p)) s =
    Some (tt, with_log s (log s ++ links_of rest)).
Proof.
  induction rest as [|p rest IH]; intros front s E Hn.
  - cbn. unfold ret. now rewrite app_nil_r, with_log_id.
  - cbn [length] in *.
    erewrite for_range_S.
    2:{ rewrite (bind_some _ _ _ _ _ (particle_at_spec _ _ _ _ E)).
        replace (n - (length front + 1))%nat with (length rest) by lia.
        replace (length front + 1)%nat with (length (front ++ [p]))
          by (rewrite length_app; cbn; lia).
        apply link_inner_spec. now rewrite <- app_assoc. }
    replace (S (length front)) with (length (front ++ [p]))
      by (rewrite length_app; cbn; lia).
    rewrite IH.
    + cbn [links_of]. run_monad. now rewrite <- !app_assoc.
    + cbn. now rewrite <- app_assoc.
    + rewrite length_app. cbn. lia.
Qed.

Lemma step_spec s : step s = Some (tt, after_step s).
Proof.
  unfold step.
  erewrite bind_some by reflexivity.
  erewrite bind_some by reflexivity.
  erewrite bind_some.
  2:{ apply (link_outer_spec _ (particles s) []); [reflexivity|].
      run_monad. reflexivity. }
  erewrite bind_some.
  2:{ apply (particle_loop_spec (particles s) []). reflexivity. }
  unfold after_step, requestAnimationFrame. run_monad.
  now rewrite <- !app_assoc.
Qed.

Lemma new_particle_spec s :
  new_particle s =
    Some (particle_from (env s) (rng_pos s), with_rng_pos s (5 + rng_pos s)).
Proof. reflexivity. Qed.

Lemma Array_from_spec n : forall s,
  Array_from n new_particle s =
    Some (initial_particles (env s) (rng_pos s) n,
          with_rng_pos s (5 * n + rng_pos s)).
Proof.
  induction n as [|n IH]; intros s.
  - cbn. unfold ret. now destruct s.
  - cbn [Array_from initial_particles].
    rewrite (bind_some _ _ _ _ _ (new_particle_spec s)).
    rewrite (bind_some _ _ _ _ _ (IH _)).
    unfold ret. run_monad. do 3 f_equal. lia.
Qed.

Lemma setup_spec e : setup (initial_world e) = Some (tt, before_first_step e).
Proof.
  unfold setup.
  erewrite bind_some by reflexivity.
  erewrite bind_some by reflexivity.
  erewrite bind_some by reflexivity.
  erewrite bind_some by apply Array_from_spec.
  erewrite bind_some by reflexivity.
  erewrite bind_some by reflexivity.
  now rewrite resize_spec.
Qed.

Lemma effect_spec e : effect (initial_world e) = Some (tt, after_effect e).
Proof.
  unfold effect. rewrite (bind_some _ _ _ _ _ (setup_spec e)).
  now rewrite step_spec.
Qed.

Lemma mount_spec e : mount e = Some (after_effect e).
Proof. unfold mount, exec. now rewrite effect_spec. Qed.

Lemma cleanup_spec s : cleanup s = Some (tt, after_cleanup s).
Proof.
  unfold cleanup, after_cleanup, cancelAnimationFrame, ro_disconnect.
  run_monad. now rewrite <- !app_assoc.
Qed.

Lemma invoke_all_spec cbs : forall s,
  invoke_all cbs s = Some (tt, fold_left (fun s' _ => after_step s') cbs s).
Proof.
  induction cbs as [|c cbs IH]; intros s; [reflexivity|].
  cbn [invoke_all fold_left].
  rewrite (bind_some _ _ _ _ _ (step_spec s)). apply IH.
Qed.

Lemma handle_spec ev s : exec (handle ev) s = Some (after_event ev s).
Proof.
  unfold exec. destruct ev; cbn [handle after_event]; try reflexivity.
  - erewrite bind_some by reflexivity. unfold when.
    destruct (ro_observing s); [now rewrite resize_spec | reflexivity].
  - unfold run_animation_frame.
    erewrite bind_some by reflexivity.
    erewrite bind_some by reflexivity.
    now rewrite invoke_all_spec.
  - now rewrite cleanup_spec.
Qed.

Lemma run_spec evs : forall s, run evs s = Some (after_events evs s).
Proof.
  induction evs as [|ev evs IH]; intros s; [reflexivity|].
  cbn [run]. rewrite handle_spec. apply IH.
Qed.

(** ** Wraparound *)

Lemma Rltb_true a b : a < b -> Rltb a b = true.
Proof. intros H. unfold Rltb. now destruct (Rlt_dec a b). Qed.

Lemma Rltb_false a b : b <= a -> Rltb a b = false.
Proof. intros H. unfold Rltb. destruct (Rlt_dec a b); [lra | reflexivity]. Qed.

(** Case analysis on the innermost comparison, contradictory branches
    closed by linear arithmetic. *)
Ltac case_Rltb :=
  repeat match goal with
         | |- context [Rltb ?a ?b] =>
             lazymatch a with context [Rltb _ _] => fail | _ => idtac end;
             lazymatch b with context [Rltb _ _] => fail | _ => idtac end;
             let H := fresh "H" in
             destruct (Rlt_dec a b) as [H|H];
             [ rewrite (Rltb_true a b H)
             | rewrite (Rltb_false a b (Rnot_lt_le _ _ H)) ];
             cbn [x y vx vy r set_x set_y]; try lra
         end.

Lemma advance_x bw bh p : x (advance bw bh p) = wrap bw (x p + vx p).
Proof. unfold advance, wrap. cbn. case_Rltb; reflexivity. Qed.

Lemma advance_y bw bh p : y (advance bw bh p) = wrap bh (y p + vy p).
Proof. unfold advance, wrap. cbn. case_Rltb; reflexivity. Qed.

Lemma advance_kinematics bw bh p :
  vx (advance bw bh p) = vx p /\ vy (advance bw bh p) = vy p /\
  r (advance bw bh p) = r p.
Proof. unfold advance. cbn. case_Rltb; cbn; auto. Qed.

Lemma wrap_range limit v : 0 <= limit -> -20 <= wrap limit v <= limit + 20.
Proof. intros H. unfold wrap. case_Rltb; lra. Qed.

Lemma wrap_above limit v : 0 <= limit -> limit + 20 < v -> wrap limit v = -20.
Proof. intros H Hv. unfold wrap. case_Rltb; lra. Qed.

Lemma wrap_below limit v : v < -20 -> wrap limit v = limit + 20.
Proof. intros Hv. unfold wrap. case_Rltb; lra. Qed.

Lemma wrap_inside limit v : -20 <= v <= limit + 20 -> wrap limit v = v.
Proof. intros Hv. unfold wrap. case_Rltb; lra. Qed.

Lemma advance_in_box bw bh p :
  0 <= bw -> 0 <= bh -> in_box bw bh (advance bw bh p).
Proof.
  intros Hw Hh. unfold in_box. rewrite advance_x, advance_y.
  split; now apply wrap_range.
Qed.

(** C1. After the position update of a frame every particle lies in the
    surface extended by the 20-unit margin; a coordinate that went past
    [width + 20] (or [height + 20]) is exactly -20, one that went below
    -20 is exactly [width + 20] (or [height + 20]), one that stayed inside
    is kept as it is, and the velocity keeps its sign and value. *)
Theorem wraparound_after_update (s : World) :
  0 <= w s -> 0 <= h s ->
  exists s', step s = Some (tt, s') /\
    forall k p, particles s !! k = Some p ->
      exists p', particles s' !! k = Some p' /\
        in_box (w s) (h s) p' /\
        (w s + 20 < x p + vx p -> x p' = -20) /\
        (x p + vx p < -20 -> x p' = w s + 20) /\
        (-20 <= x p + vx p <= w s + 20 -> x p' = x p + vx p) /\
        (h s + 20 < y p + vy p -> y p' = -20) /\
        (y p + vy p < -20 -> y p' = h s + 20) /\
        (-20 <= y p + vy p <= h s + 20 -> y p' = y p + vy p) /\
        vx p' = vx p /\ vy p' = vy p.
Proof.
  intros Hw Hh. exists (after_step s). split; [apply step_spec|].
  intros k p Hk. exists (advance (w s) (h s) p).
  split; [cbn; now rewrite list_lookup_fmap, Hk|].
  split; [now apply advance_in_box|].
  rewrite advance_x, advance_y.
  destruct (advance_kinematics (w s) (h s) p) as (Hvx & Hvy & _).
  repeat split; intros; auto using wrap_above, wrap_below, wrap_inside.
Qed.

(** The frame of [world_one], a 100 by 50 surface. *)
Lemma wraparound_after_update_witness :
  0 <= w world_one /\ 0 <= h world_one /\
  exists s', step world_one = Some (tt, s') /\
    forall k p, particles world_one !! k = Some p ->
      exists p', particles s' !! k = Some p' /\
        in_box (w world_one) (h world_one) p' /\
        (w world_one + 20 < x p + vx p -> x p' = -20) /\
        (x p + vx p < -20 -> x p' = w world_one + 20) /\
        (-20 <= x p + vx p <= w world_one + 20 -> x p' = x p + vx p) /\
        (h world_one + 20 < y p + vy p -> y p' = -20) /\
        (y p + vy p < -20 -> y p' = h world_one + 20) /\
        (-20 <= y p + vy p <= h world_one + 20 -> y p' = y p + vy p) /\
        vx p' = vx p /\ vy p' = vy p.
Proof.
  split; [cbn; lra|]. split; [cbn; lra|].
  apply (wraparound_after_update world_one); cbn; lra.
Defined.

(** ** Invariants of the event loop *)

Lemma after_frame_one s hd :
  raf_callbacks s = [hd] ->
  after_frame s = after_step (with_raf s [] (raf_last s)).
Proof. intros E. unfold after_frame. now rewrite E. Qed.

Lemma after_frame_none s :
  raf_callbacks s = [] -> after_frame s = with_raf s [] (raf_last s).
Proof. intros E. unfold after_frame. now rewrite E. Qed.

Lemma after_frame_ind (P : World -> Prop) s :
  P (with_raf s [] (raf_last s)) ->
  (forall s', P s' -> P (after_step s')) ->
  P (after_frame s).
Proof.
  intros H0 Hstep. unfold after_frame.
  generalize dependent (with_raf s [] (raf_last s)).
  induction (raf_callbacks s) as [|c cbs IH]; intros s0 H0; cbn; auto.
Qed.

(** A property of the closure that no handler breaks is kept by every
    event. *)
Lemma after_event_ind (P : World -> Prop) ev s :
  (forall s' e, P s' -> P (with_env s' e)) ->
  (forall s' cbs n, P s' -> P (with_raf s' cbs n)) ->
  (forall s', P s' -> P (after_resize s')) ->
  (forall s', P s' -> P (after_step s')) ->
  (forall s', P s' -> P (after_cleanup s')) ->
  P s -> P (after_event ev s).
Proof.
  intros Henv Hraf Hres Hstep Hclean H.
  destruct ev; cbn [after_event]; auto.
  - destruct (ro_observing s); auto.
  - apply after_frame_ind; auto.
Qed.

Lemma after_events_ind (P : World -> Prop) evs : forall s,
  (forall ev s', P s' -> P (after_event ev s')) ->
  P s -> P (after_events evs s).
Proof.
  unfold after_events.
  induction evs as [|ev evs IH]; intros s Hev H; cbn; auto.
Qed.

Lemma initial_particles_length e n : forall k,
  length (initial_particles e k n) = n.
Proof. induction n as [|n IH]; intros k; cbn; [reflexivity | now rewrite IH]. Qed.

Lemma kinematics_advance bw bh ps :
  map kinematics (map (advance bw bh) ps) = map kinematics ps.
Proof.
  rewrite map_map. apply map_ext. intros p. unfold kinematics.
  destruct (advance_kinematics bw bh p) as (-> & -> & ->). reflexivity.
Qed.

Lemma count_kept ev s :
  length (particles (after_event ev s)) = length (particles s).
Proof.
  apply (after_event_ind
           (fun s' => length (particles s') = length (particles s)));
    try (intros; assumption); try reflexivity.
  intros s' H. cbn. now rewrite length_map.
Qed.

Lemma kinematics_kept ev s :
  map kinematics (particles (after_event ev s)) = map kinematics (particles s).
Proof.
  apply (after_event_ind
           (fun s' => map kinematics (particles s') = map kinematics (particles s)));
    try (intros; assumption); try reflexivity.
  intros s' H. cbn. now rewrite kinematics_advance.
Qed.

Lemma dpi_kept ev s : dpi (after_event ev s) = dpi s.
Proof.
  apply (after_event_ind (fun s' => dpi s' = dpi s));
    try (intros; assumption); reflexivity.
Qed.

Lemma surface_nonneg_kept ev s :
  0 <= w s /\ 0 <= h s ->
  0 <= w (after_event ev s) /\ 0 <= h (after_event ev s).
Proof.
  apply (after_event_ind (fun s' => 0 <= w s' /\ 0 <= h s'));
    try (intros; assumption).
  intros s' _. cbn. split; apply IZR_le, N2Z.is_nonneg.
Qed.

Lemma pending_ok_kept ev s : pending_ok s -> pending_ok (after_event ev s).
Proof.
  intros H. destruct ev; cbn [after_event]; auto.
  - destruct (ro_observing s); auto.
  - destruct H as [H|H].
    + rewrite (after_frame_none _ H). now left.
    + rewrite (after_frame_one _ _ H). now right.
  - left. cbn. destruct H as [->| ->]; [reflexivity|].
    rewrite filter_cons. now destruct (decide (rafRef s ≠ rafRef s)).
Qed.

Lemma pending_ok_mount e : pending_ok (after_effect e).
Proof. now right. Qed.

Lemma cleanup_tears_down s : pending_ok s -> torn_down (after_cleanup s).
Proof.
  intros H. split; [|reflexivity]. cbn. destruct H as [->| ->]; [reflexivity|].
  rewrite filter_cons. now destruct (decide (rafRef s ≠ rafRef s)).
Qed.

Lemma torn_down_event ev s :
  torn_down s ->
  torn_down (after_event ev s) /\
  log (after_event ev s) = log s ++ calls_when_torn_down s ev /\
  particles (after_event ev s) = particles s /\
  rafRef (after_event ev s) = rafRef s.
Proof.
  intros [Hcb Hro]. destruct ev; cbn [after_event calls_when_torn_down].
  - repeat split; cbn; auto using app_nil_r.
  - repeat split; cbn; auto using app_nil_r.
  - rewrite Hro. repeat split; auto using app_nil_r.
  - rewrite (after_frame_none _ Hcb). repeat split; cbn; auto using app_nil_r.
  - repeat split; cbn; auto. now rewrite Hcb.
Qed.

Lemma torn_down_events evs : forall s,
  torn_down s ->
  torn_down (after_events evs s) /\
  log (after_events evs s) = log s ++ flat_map (calls_when_torn_down s) evs /\
  particles (after_events evs s) = particles s /\
  rafRef (after_events evs s) = rafRef s.
Proof.
  unfold after_events.
  induction evs as [|ev evs IH]; intros s H; cbn [fold_left flat_map].
  - repeat split; try apply H. now rewrite app_nil_r.
  - destruct (torn_down_event ev s H) as (H1 & H2 & H3 & H4).
    destruct (IH _ H1) as (K1 & K2 & K3 & K4).
    repeat split; try apply K1; try congruence.
    rewrite K2, H2, <- app_assoc. f_equal. f_equal.
    apply flat_map_ext. intros ev'. unfold calls_when_torn_down.
    now rewrite H4.
Qed.

Lemma reachable_ind (P : World -> Prop) e evs :
  P (after_effect e) ->
  (forall ev s, P s -> P (after_event ev s)) ->
  P (after_events evs (after_effect e)).
Proof. intros H0 Hev. now apply after_events_ind. Qed.

Lemma exec_cleanup s : exec cleanup s = Some (after_cleanup s).
Proof. unfold exec. now rewrite cleanup_spec. Qed.

(** ** Particle count *)

(** C3. The array built at mount holds 36 particles, and after any sequence
    of frames, resize notifications, environment changes and cleanups it
    still holds 36. *)
Theorem particle_count_fixed (e : Env) (evs : list Event) :
  exists sb s0 s,
    exec setup (initial_world e) = Some sb /\
    mount e = Some s0 /\ run evs s0 = Some s /\
    length (particles sb) = 36%nat /\
    length (particles s0) = 36%nat /\
    length (particles s) = 36%nat.
Proof.
  exists (before_first_step e), (after_effect e),
         (after_events evs (after_effect e)).
  split; [unfold exec; now rewrite setup_spec|].
  split; [apply mount_spec|]. split; [apply run_spec|].
  assert (H0 : length (particles (after_effect e)) = 36%nat).
  { unfold after_effect, after_step. cbn [particles].
    rewrite length_map. reflexivity. }
  split; [reflexivity|]. split; [exact H0|].
  apply (reachable_ind (fun s => length (particles s) = 36%nat)); [exact H0|].
  intros ev s H. now rewrite count_kept.
Qed.

(** ** Unmount *)

(** C6. Whatever happened between mount and unmount, once the cleanup has
    run no frame request is pending and the observer is detached, and this
    stays so: later animation frames, resize notifications and environment
    changes make no call on any host object and leave the particles
    untouched, so [step] does not run again.  (A repeated cleanup only
    repeats its own two calls.) *)
Theorem no_frame_after_unmount (e : Env) (before later : list Event) :
  exists s0 s1 s2 s3,
    mount e = Some s0 /\ run before s0 = Some s1 /\
    exec cleanup s1 = Some s2 /\ run later s2 = Some s3 /\
    raf_callbacks s2 = [] /\ ro_observing s2 = false /\
    raf_callbacks s3 = [] /\ ro_observing s3 = false /\
    log s3 = log s2 ++ flat_map (calls_when_torn_down s2) later /\
    Forall (fun c => c = CancelAnimationFrame (rafRef s2) \/ c = Disconnect)
           (flat_map (calls_when_torn_down s2) later) /\
    particles s3 = particles s2 /\ rafRef s3 = rafRef s2.
Proof.
  set (s1 := after_events before (after_effect e)).
  exists (after_effect e), s1, (after_cleanup s1),
         (after_events later (after_cleanup s1)).
  split; [apply mount_spec|]. split; [apply run_spec|].
  split; [apply exec_cleanup|]. split; [apply run_spec|].
  assert (Hp : pending_ok s1).
  { apply (reachable_ind pending_ok); [apply pending_ok_mount|].
    intros ev s. apply pending_ok_kept. }
  pose proof (cleanup_tears_down s1 Hp) as Ht.
  destruct (torn_down_events later _ Ht) as ((K1 & K2) & K3 & K4 & K5).
  destruct Ht as (T1 & T2).
  repeat split; auto.
  apply List.Forall_forall. intros c Hc. apply in_flat_map in Hc.
  destruct Hc as (ev & _ & Hc).
  destruct ev; cbn in Hc; try contradiction.
  destruct Hc as [<-|[<-|[]]]; auto.
Qed.

(** ** Links *)

Lemma pair_link_row ps i p rest : forall front,
  ps = front ++ rest -> ps !! i = Some p ->
  flat_map (pair_link ps) (map (pair i) (seq (length front) (length rest))) =
  flat_map (link_calls p) rest.
Proof.
  induction rest as [|q rest IH]; intros front E Hi; [reflexivity|].
  cbn [length seq map flat_map]. f_equal.
  - unfold pair_link. cbn [fst snd]. now rewrite Hi, E, lookup_middle.
  - replace (S (length front)) with (length (front ++ [q]))
      by (rewrite length_app; cbn; lia).
    apply IH; [now rewrite <- app_assoc | exact Hi].
Qed.

Lemma links_of_pairs_from ps rest : forall front,
  ps = front ++ rest ->
  links_of rest =
  flat_map (pair_link ps)
    (flat_map (fun i => map (pair i) (seq (S i) (length ps - S i)))
              (seq (length front) (length rest))).
Proof.
  induction rest as [|p rest IH]; intros front E; [reflexivity|].
  cbn [length seq flat_map links_of]. rewrite flat_map_app. f_equal.
  - replace (length ps - S (length front))%nat with (length rest)
      by (rewrite E, length_app; cbn; lia).
    replace (S (length front)) with (length (front ++ [p]))
      by (rewrite length_app; cbn; lia).
    symmetry. apply pair_link_row; [now rewrite <- app_assoc|].
    now rewrite E, lookup_middle.
  - replace (S (length front)) with (length (front ++ [p]))
      by (rewrite length_app; cbn; lia).
    apply IH. now rewrite <- app_assoc.
Qed.

Lemma links_of_pairs ps :
  links_of ps = flat_map (pair_link ps) (unordered_pairs (length ps)).
Proof. apply (links_of_pairs_from ps ps []). reflexivity. Qed.

Lemma in_unordered_pairs n i j :
  In (i, j) (unordered_pairs n) <-> (i < j < n)%nat.
Proof.
  unfold unordered_pairs. rewrite in_flat_map. split.
  - intros (k & Hk & Hin). apply in_map_iff in Hin.
    destruct Hin as (m & [= <- <-] & Hm).
    apply in_seq in Hk. apply in_seq in Hm. lia.
  - intros H. exists i. split; [apply in_seq; lia|].
    apply in_map_iff. exists j. split; [reflexivity | apply in_seq; lia].
Qed.

Lemma NoDup_flat_map_disjoint {A B} (f : A -> list B) (l : list A) :
  List.NoDup l ->
  (forall a, In a l -> List.NoDup (f a)) ->
  (forall a b c, In a l -> In b l -> In c (f a) -> In c (f b) -> a = b) ->
  List.NoDup (flat_map f l).
Proof.
  induction l as [|a l IH]; intros Hl Hf Hd; cbn; [constructor|].
  inversion Hl as [|? ? Ha Hl']; subst.
  apply List.NoDup_app.
  - apply Hf. now left.
  - apply IH; auto.
    + intros b Hb. apply Hf. now right.
    + intros b1 b2 c H1 H2. apply Hd; now right.
  - intros c Hc Hc'. apply in_flat_map in Hc'. destruct Hc' as (b & Hb & Hcb).
    assert (a = b) by (apply (Hd a b c); cbn; auto). now subst.
Qed.

Lemma NoDup_map_pair (i : nat) (l : list nat) :
  List.NoDup l -> List.NoDup (map (pair i) l).
Proof.
  induction 1 as [|j l Hj Hl IH]; cbn; constructor; [|exact IH].
  intros Hin. apply in_map_iff in Hin.
  destruct Hin as (k & [= ->] & Hk). contradiction.
Qed.

Lemma NoDup_unordered_pairs n : List.NoDup (unordered_pairs n).
Proof.
  unfold unordered_pairs. apply NoDup_flat_map_disjoint.
  - apply List.seq_NoDup.
  - intros i _. apply NoDup_map_pair, List.seq_NoDup.
  - intros a b [i j] _ _ Ha Hb.
    apply in_map_iff in Ha. destruct Ha as (? & [= <- _] & _).
    apply in_map_iff in Hb. destruct Hb as (? & [= <- _] & _).
    reflexivity.
Qed.

Lemma link_calls_close p q :
  distance p q < 120 -> link_calls p q = stroke_link p q.
Proof. intros H. unfold link_calls. now rewrite Rltb_true. Qed.

Lemma link_calls_far p q : 120 <= distance p q -> link_calls p q = [].
Proof. intros H. unfold link_calls. now rewrite Rltb_false. Qed.

Lemma disc_calls_no_stroke ps :
  Forall (fun c => c <> Stroke) (flat_map disc_calls ps).
Proof.
  apply List.Forall_forall. intros c Hc. apply in_flat_map in Hc.
  destruct Hc as (p & _ & Hc). cbn in Hc.
  repeat (destruct Hc as [<-|Hc]; [discriminate|]). contradiction.
Qed.

Lemma distance_on_axis a b :
  0 <= a ->
  distance {| x := a; y := 0; vx := b; vy := b; r := 2 |}
           {| x := 0; y := 0; vx := b; vy := b; r := 2 |} = a.
Proof.
  intros Ha. unfold distance. cbn.
  replace ((a - 0) * (a - 0) + (0 - 0) * (0 - 0)) with (a * a) by lra.
  now apply sqrt_square.
Qed.

(** Two particles 120 apart are not linked; 60 apart they are, at opacity
    0.175. *)
Example no_link_at_120 :
  link_calls {| x := 120; y := 0; vx := 0; vy := 0; r := 2 |}
             {| x := 0; y := 0; vx := 0; vy := 0; r := 2 |} = [].
Proof. apply link_calls_far. rewrite distance_on_axis; lra. Qed.

Example link_at_60 :
  link_calls {| x := 60; y := 0; vx := 0; vy := 0; r := 2 |}
             {| x := 0; y := 0; vx := 0; vy := 0; r := 2 |} =
  [ SetStrokeStyle (Solid (rgba 0 194 255 0.175)); SetLineWidth 1; BeginPath;
    MoveTo 60 0; LineTo 0 0; Stroke ].
Proof.
  rewrite link_calls_close by (rewrite distance_on_axis; lra).
  unfold stroke_link, link_alpha. rewrite distance_on_axis by lra. cbn.
  do 4 f_equal. lra.
Qed.

Example unordered_pairs_4 :
  unordered_pairs 4 = [(0, 1); (0, 2); (0, 3); (1, 2); (1, 3); (2, 3)]%nat.
Proof. reflexivity. Qed.

(** C2. In a frame the link phase goes through every pair of indices
    [i < j] exactly once; for a pair at Euclidean distance below 120 it
    strokes the segment between the two positions with colour
    [rgba(0,194,255,a)], [a = (1 - distance/120) * 0.35], and line width 1;
    for a pair at distance 120 or more it draws nothing.  No other part of
    the frame strokes anything. *)
Theorem links_drawn_iff_close (s : World) :
  exists s' tail,
    step s = Some (tt, s') /\
    log s' = log s ++ [ClearRect 0 0 (w s) (h s)]
               ++ flat_map (pair_link (particles s))
                           (unordered_pairs (length (particles s)))
               ++ tail /\
    Forall (fun c => c <> Stroke) tail /\
    List.NoDup (unordered_pairs (length (particles s))) /\
    (forall i j, In (i, j) (unordered_pairs (length (particles s))) <->
                 (i < j < length (particles s))%nat) /\
    forall i j p q,
      particles s !! i = Some p -> particles s !! j = Some q ->
      distance p q =
        sqrt ((x p - x q) * (x p - x q) + (y p - y q) * (y p - y q)) /\
      (distance p q < 120 ->
       pair_link (particles s) (i, j) =
         [ SetStrokeStyle
             (Solid (rgba 0 194 255 ((1 - distance p q / 120) * 0.35)));
           SetLineWidth 1; BeginPath;
           MoveTo (x p) (y p); LineTo (x q) (y q); Stroke ]) /\
      (120 <= distance p q -> pair_link (particles s) (i, j) = []).
Proof.
  exists (after_step s),
         (flat_map disc_calls (particles (after_step s))
            ++ [RequestAnimationFrame (rafRef (after_step s))]).
  split; [apply step_spec|].
  split; [cbn; now rewrite links_of_pairs|].
  split.
  { apply Forall_app. split; [apply disc_calls_no_stroke|].
    constructor; [discriminate | constructor]. }
  split; [apply NoDup_unordered_pairs|].
  split; [intros i j; apply in_unordered_pairs|].
  intros i j p q Hi Hj. split; [reflexivity|].
  unfold pair_link. cbn [fst snd]. rewrite Hi, Hj.
  split; intros H; [now rewrite link_calls_close | now apply link_calls_far].
Qed.

(** ** Order of a frame *)

(** C4. A call of [step] makes its host calls in this order: it clears the
    logical area, draws the links pair by pair in the order of the nested
    loops from the positions the particles had when the frame began, then
    draws every particle at its advanced position, and last requests the
    next frame, whose handle it stores in [rafRef]. *)
Theorem frame_order (s : World) :
  exists s',
    step s = Some (tt, s') /\
    particles s' = map (advance (w s) (h s)) (particles s) /\
    log s' = log s ++ [ClearRect 0 0 (w s) (h s)]
               ++ flat_map (pair_link (particles s))
                           (unordered_pairs (length (particles s)))
               ++ flat_map disc_calls (particles s')
               ++ [RequestAnimationFrame (rafRef s')] /\
    raf_callbacks s' = raf_callbacks s ++ [rafRef s'].
Proof.
  exists (after_step s). split; [apply step_spec|].
  split; [reflexivity|]. split; [|reflexivity].
  cbn. now rewrite links_of_pairs.
Qed.

(** ** Resize *)

Lemma Math_floor_IZR z : Math_floor (IZR z) = z.
Proof. unfold Math_floor. symmetry. apply Int_part_spec. lra. Qed.

Lemma Math_floor_bounds v :
  IZR (Math_floor v) <= v < IZR (Math_floor v) + 1.
Proof. unfold Math_floor. destruct (base_Int_part v). lra. Qed.

Lemma last_of_three {A} (l : list A) a b c : last (l ++ [a; b; c]) = Some c.
Proof.
  replace (l ++ [a; b; c]) with ((l ++ [a; b]) ++ [c])
    by (now rewrite <- app_assoc).
  apply last_snoc.
Qed.

Lemma or_one_some d : d <> 0 -> or_one (Some d) = d.
Proof. intros H. unfold or_one. now destruct (Req_dec_T d 0). Qed.

Lemma mount_dpi e evs :
  dpi (after_events evs (after_effect e)) =
  Rmax 1 (or_one (devicePixelRatio e)).
Proof.
  apply (reachable_ind
           (fun s => dpi s = Rmax 1 (or_one (devicePixelRatio e))));
    [reflexivity|].
  intros ev s H. now rewrite dpi_kept.
Qed.

Lemma dpi_ratio_1 : Rmax 1 (or_one (Some 1)) = 1.
Proof. rewrite or_one_some by lra. apply Rmax_left. lra. Qed.

Lemma dpi_ratio_2 : Rmax 1 (or_one (Some 2)) = 2.
Proof. rewrite or_one_some by lra. apply Rmax_right. lra. Qed.

Lemma Math_floor_of z v : IZR z <= v < IZR z + 1 -> Math_floor v = z.
Proof. intros H. unfold Math_floor. symmetry. apply Int_part_spec. lra. Qed.

Lemma dpi_ratio_half : Rmax 1 (or_one (Some 0.5)) = 1.
Proof. rewrite or_one_some by lra. apply Rmax_left. lra. Qed.

Lemma dpi_ratio_3_2 : Rmax 1 (or_one (Some 1.5)) = 1.5.
Proof. rewrite or_one_some by lra. apply Rmax_right. lra. Qed.

(** A layout change followed by its notification, right after a mount. *)
Lemma resize_after_layout e cw ch :
  exists s1,
    after_events [LayoutChange cw ch; ResizeNotification] (after_effect e)
      = after_resize s1 /\
    dpi s1 = Rmax 1 (or_one (devicePixelRatio e)) /\
    env s1 = mkEnv (devicePixelRatio e) (innerWidth e) (innerHeight e)
                   cw ch (random e).
Proof.
  exists (after_events [LayoutChange cw ch] (after_effect e)).
  split; [reflexivity|]. split; [|reflexivity].
  apply (mount_dpi e [LayoutChange cw ch]).
Qed.

(** C5, as stated, fails in three ways.  The ratio is read when the effect
    runs and never again: after a mount at ratio 1, with the host ratio now
    2 and the box 400 by 300, a resize notification leaves a 400 by 300
    buffer under the transform of scale 1, not 800 by 600 under scale 2.
    The factor is not the ratio itself but at least 1: mounted at ratio
    0.5, a 400 by 300 box gets a 400 by 300 buffer, not 200 by 150.  And
    the buffer is the product rounded down: mounted at ratio 1.5, a 401 by
    301 box gets a 601 by 451 buffer, where the products are 601.5 and
    451.5. *)
Lemma resize_rereads_ratio_counterexample :
  (exists s0 s,
     mount env_ratio_1 = Some s0 /\ run to_ratio_2_and_shrink s0 = Some s /\
     devicePixelRatio (env s) = Some 2 /\
     w s = 400 /\ h s = 300 /\
     canvas_width s = 400%Z /\ canvas_height s = 300%Z /\
     canvas_width s <> 800%Z /\ canvas_height s <> 600%Z /\
     last (log s) = Some (SetTransform 1 0 0 1 0 0)) /\
  (exists s0 s,
     mount env_ratio_half = Some s0 /\ run shrink s0 = Some s /\
     devicePixelRatio (env s) = Some 0.5 /\
     w s = 400 /\ h s = 300 /\
     canvas_width s = 400%Z /\ canvas_height s = 300%Z /\
     canvas_width s <> 200%Z /\ canvas_height s <> 150%Z /\
     last (log s) = Some (SetTransform 1 0 0 1 0 0)) /\
  (exists s0 s,
     mount env_ratio_3_2 = Some s0 /\ run to_odd_box s0 = Some s /\
     devicePixelRatio (env s) = Some 1.5 /\
     w s = 401 /\ h s = 301 /\
     canvas_width s = 601%Z /\ canvas_height s = 451%Z /\
     IZR (canvas_width s) <> w s * 1.5 /\
     IZR (canvas_height s) <> h s * 1.5).
Proof.
  split; [|split].
  - eexists _, _. split; [apply mount_spec|]. split; [apply run_spec|].
    pose (s1 := after_events
                  [WindowChange 1280 720 (Some 2); LayoutChange 400 300]
                  (after_effect env_ratio_1)).
    assert (Hd : dpi s1 = 1).
    { unfold s1. rewrite mount_dpi. apply dpi_ratio_1. }
    assert (He : env s1 = mkEnv (Some 2) 1280 720 400 300 (fun _ => 0.5))
      by reflexivity.
    assert (Hs : after_events to_ratio_2_and_shrink (after_effect env_ratio_1)
                 = after_resize s1) by reflexivity.
    rewrite Hs. clearbody s1. clear Hs.
    unfold after_resize.
    cbn [env canvas_width canvas_height log w h].
    rewrite He, Hd. cbn [clientWidth clientHeight devicePixelRatio].
    change (IZR (Z.of_N 400)) with 400. change (IZR (Z.of_N 300)) with 300.
    rewrite !Rmult_1_r, !Math_floor_IZR.
    repeat split; try discriminate. apply last_of_three.
  - eexists _, _. split; [apply mount_spec|]. split; [apply run_spec|].
    destruct (resize_after_layout env_ratio_half 400 300) as (s1 & Hs & Hd & He).
    unfold shrink. rewrite Hs. clear Hs.
    cbn [devicePixelRatio env_ratio_half] in Hd. rewrite dpi_ratio_half in Hd.
    unfold after_resize.
    cbn [env canvas_width canvas_height log w h].
    rewrite He, Hd. cbn [clientWidth clientHeight devicePixelRatio env_ratio_half].
    change (IZR (Z.of_N 400)) with 400. change (IZR (Z.of_N 300)) with 300.
    rewrite !Rmult_1_r, !Math_floor_IZR.
    repeat split; try discriminate. apply last_of_three.
  - eexists _, _. split; [apply mount_spec|]. split; [apply run_spec|].
    destruct (resize_after_layout env_ratio_3_2 401 301) as (s1 & Hs & Hd & He).
    unfold to_odd_box. rewrite Hs. clear Hs.
    cbn [devicePixelRatio env_ratio_3_2] in Hd. rewrite dpi_ratio_3_2 in Hd.
    unfold after_resize.
    cbn [env canvas_width canvas_height log w h].
    rewrite He, Hd. cbn [clientWidth clientHeight devicePixelRatio env_ratio_3_2].
    change (IZR (Z.of_N 401)) with 401. change (IZR (Z.of_N 301)) with 301.
    rewrite (Math_floor_of 601 (401 * 1.5)) by lra.
    rewrite (Math_floor_of 451 (301 * 1.5)) by lra.
    repeat split; lra.
Qed.

(** The scenario of the specification, with the ratio 2 present at mount:
    the box shrinks to 400 by 300 and the buffer becomes 800 by 600. *)
Example resize_400x300_mounted_at_ratio_2 :
  exists s0 s,
    mount env_ratio_2 = Some s0 /\ run shrink s0 = Some s /\
    w s = 400 /\ h s = 300 /\
    canvas_width s = 800%Z /\ canvas_height s = 600%Z /\
    last (log s) = Some (SetTransform 2 0 0 2 0 0).
Proof.
  eexists _, _. split; [apply mount_spec|]. split; [apply run_spec|].
  pose (s1 := after_events [LayoutChange 400 300] (after_effect env_ratio_2)).
  assert (Hd : dpi s1 = 2).
  { unfold s1. rewrite mount_dpi. apply dpi_ratio_2. }
  assert (He : env s1 = mkEnv (Some 2) 1280 720 400 300 (fun _ => 0.5))
    by reflexivity.
  assert (Hs : after_events shrink (after_effect env_ratio_2)
               = after_resize s1) by reflexivity.
  rewrite Hs. clearbody s1. clear Hs.
  unfold after_resize.
  cbn [env canvas_width canvas_height log w h].
  rewrite He, Hd. cbn [clientWidth clientHeight devicePixelRatio].
  change (IZR (Z.of_N 400)) with 400. change (IZR (Z.of_N 300)) with 300.
  replace (400 * 2) with (IZR 800) by lra.
  replace (300 * 2) with (IZR 600) by lra.
  rewrite !Math_floor_IZR.
  repeat split. apply last_of_three.
Qed.

(** C5, amended.  In any world reached from a mount in environment [e], a
    call of [resize] (which is what a resize notification runs while the
    observer is attached) takes the logical size from the current content
    box, keeps the scale factor computed once at mount,
    [max(1, devicePixelRatio || 1)] of [e], sets the buffer to the floor of
    logical size times that factor, and sets the transform to that factor;
    the current ratio of the host is not consulted.  Mounted at ratio 2, a
    400 by 300 box yields an 800 by 600 buffer. *)
Theorem resize_uses_mount_ratio (e : Env) (evs : list Event) :
  exists s0 s s',
    mount e = Some s0 /\ run evs s0 = Some s /\
    resize s = Some (tt, s') /\
    exec (handle ResizeNotification) s =
      Some (if ro_observing s then s' else s) /\
    dpi s' = Rmax 1 (or_one (devicePixelRatio e)) /\
    w s' = IZR (Z.of_N (clientWidth (env s))) /\
    h s' = IZR (Z.of_N (clientHeight (env s))) /\
    canvas_width s' = Math_floor (w s' * dpi s') /\
    canvas_height s' = Math_floor (h s' * dpi s') /\
    IZR (canvas_width s') <= w s' * dpi s' < IZR (canvas_width s') + 1 /\
    IZR (canvas_height s') <= h s' * dpi s' < IZR (canvas_height s') + 1 /\
    log s' = log s ++ [ SetCanvasWidth (canvas_width s');
                        SetCanvasHeight (canvas_height s');
                        SetTransform (dpi s') 0 0 (dpi s') 0 0 ] /\
    particles s' = particles s /\
    (devicePixelRatio e = Some 2 ->
     clientWidth (env s) = 400%N -> clientHeight (env s) = 300%N ->
     canvas_width s' = 800%Z /\ canvas_height s' = 600%Z).
Proof.
  set (s := after_events evs (after_effect e)).
  exists (after_effect e), s, (after_resize s).
  split; [apply mount_spec|]. split; [apply run_spec|].
  split; [apply resize_spec|].
  split. { rewrite handle_spec. cbn. now destruct (ro_observing s). }
  assert (Hd : dpi s = Rmax 1 (or_one (devicePixelRatio e)))
    by apply mount_dpi.
  split; [exact Hd|].
  do 8 (split; [first [reflexivity | apply Math_floor_bounds]|]).
  intros H2 Hcw Hch. rewrite H2, dpi_ratio_2 in Hd.
  unfold after_resize. cbn [canvas_width canvas_height].
  rewrite Hd, Hcw, Hch.
  change (IZR (Z.of_N 400)) with 400. change (IZR (Z.of_N 300)) with 300.
  split; apply Math_floor_of; lra.
Qed.

(** ** Drawing a particle *)

Lemma advance_at_rest bw bh p :
  vx p = 0 -> vy p = 0 -> in_box bw bh p -> advance bw bh p = p.
Proof.
  intros Hvx Hvy [Hx Hy].
  pose proof (advance_x bw bh p) as Ex.
  pose proof (advance_y bw bh p) as Ey.
  destruct (advance_kinematics bw bh p) as (Evx & Evy & Er).
  rewrite wrap_inside in Ex by lra. rewrite wrap_inside in Ey by lra.
  destruct (advance bw bh p) as [x' y' vx' vy' r'], p as [x0 y0 vx0 vy0 r0].
  cbn in *. f_equal; lra.
Qed.

Lemma transparent_at_glow p radius :
  transparent_at (glow p) radius <-> radius = 16.
Proof.
  unfold transparent_at, stop_radius, glow. cbn. split.
  - intros (o & c & [[= <- <-]|[[= <- <-]|[]]] & Ha & Hr); cbn in Ha; lra.
  - intros ->. exists 1, (rgba 124 58 237 0). cbn. split; [auto|]. lra.
Qed.

(** C8, as stated, fails: the glow gradient always ends (is fully
    transparent) at distance 16 from the centre, whatever the radius of the
    disc it fills.  A particle of radius 2 gets a glow disc of radius 10
    whose gradient has no transparent stop at distance 10. *)
Lemma glow_transparent_at_edge_counterexample :
  exists s' g,
    step world_one = Some (tt, s') /\
    log s' = [ ClearRect 0 0 100 50;
               SetFillStyle (Radial g); BeginPath;
               Arc 10 10 (2 * 5) 0 (PI * 2); Fill;
               SetFillStyle (Solid (rgba 0 194 255 0.9)); BeginPath;
               Arc 10 10 2 0 (PI * 2); Fill;
               RequestAnimationFrame 1 ] /\
    g_r1 g = 16 /\ ~ transparent_at g (2 * 5).
Proof.
  exists (after_step world_one),
         (glow {| x := 10; y := 10; vx := 0; vy := 0; r := 2 |}).
  split; [apply step_spec|]. split.
  - unfold after_step, world_one.
    cbn [log w h particles raf_last map links_of flat_map app].
    rewrite advance_at_rest; [reflexivity | reflexivity | reflexivity |].
    unfold in_box. cbn. lra.
  - split; [reflexivity|]. rewrite transparent_at_glow. lra.
Qed.

(** C8, amended.  In every frame, after the position updates, each particle
    is drawn at its new position by a disc of 5 times its radius filled
    with a radial gradient centred on it that runs from violet
    [rgba(124,58,237,0.55)] at distance 0 to the same violet fully
    transparent at distance 16 (a fixed distance: it coincides with the edge
    of the disc only for a radius of 3.2), followed by a disc of its own
    radius filled with [rgba(0,194,255,0.9)]. *)
Theorem particle_discs (s : World) :
  exists s' front,
    step s = Some (tt, s') /\
    particles s' = map (advance (w s) (h s)) (particles s) /\
    log s' = front ++ flat_map disc_calls (particles s')
                   ++ [RequestAnimationFrame (rafRef s')] /\
    forall p,
      disc_calls p =
        [ SetFillStyle
            (Radial (mkGradient (x p) (y p) 0 (x p) (y p) 16
                       [ (0, rgba 124 58 237 0.55); (1, rgba 124 58 237 0) ]));
          BeginPath; Arc (x p) (y p) (r p * 5) 0 (PI * 2); Fill;
          SetFillStyle (Solid (rgba 0 194 255 0.9));
          BeginPath; Arc (x p) (y p) (r p) 0 (PI * 2); Fill ] /\
      stop_radius (glow p) 0 = 0 /\
      stop_radius (glow p) 1 = 16 /\
      (transparent_at (glow p) (r p * 5) <-> r p = 3.2).
Proof.
  exists (after_step s),
         (log s ++ [ClearRect 0 0 (w s) (h s)] ++ links_of (particles s)).
  split; [apply step_spec|]. split; [reflexivity|].
  split; [cbn; now rewrite <- !app_assoc|].
  intros p. split; [reflexivity|].
  unfold stop_radius. cbn. split; [lra|]. split; [lra|].
  rewrite transparent_at_glow. split; lra.
Qed.

(** ** Creation *)

Lemma initial_particles_lookup e n : forall k i,
  (i < n)%nat ->
  initial_particles e k n !! i = Some (particle_from e (5 * i + k)).
Proof.
  induction n as [|n IH]; intros k i Hi; [lia|].
  destruct i as [|i]; [reflexivity|].
  cbn [initial_particles]. rewrite lookup_cons.
  rewrite IH by lia. do 2 f_equal. lia.
Qed.





(** ** Positions before the first update *)

Lemma surface_nonneg e evs :
  0 <= w (after_events evs (after_effect e)) /\
  0 <= h (after_events evs (after_effect e)).
Proof.
  apply (reachable_ind (fun s => 0 <= w s /\ 0 <= h s)).
  - cbn. split; apply IZR_le, N2Z.is_nonneg.
  - intros ev s. apply surface_nonneg_kept.
Qed.

(** C10. Positions are drawn from the inner size of the window, not from
    the size of the surface.  So when the effect reaches its first call of
    [step] a particle can lie outside the surface extended by the margin
    (with a 1000-wide window and a 100-wide canvas, a draw of 0.5 puts it at
    x = 500).  The first update, made by that call, brings every particle
    into the extended surface: a coordinate that is past the far margin
    after the velocity is added goes to -20, one below -20 goes to the far
    margin. *)
Theorem initial_positions_ignore_surface :
  (exists sb p,
     exec setup (initial_world env_one) = Some sb /\
     In p (particles sb) /\ ~ in_box (w sb) (h sb) p) /\
  forall e, exists sb s0,
    exec setup (initial_world e) = Some sb /\
    exec step sb = Some s0 /\
    mount e = Some s0 /\
    w sb = IZR (Z.of_N (clientWidth e)) /\
    h sb = IZR (Z.of_N (clientHeight e)) /\
    (forall i p, particles sb !! i = Some p ->
       x p = random e (5 * i) * IZR (Z.of_N (innerWidth e)) /\
       y p = random e (5 * i + 1) * IZR (Z.of_N (innerHeight e))) /\
    particles s0 = map (advance (w sb) (h sb)) (particles sb) /\
    Forall (in_box (w sb) (h sb)) (particles s0) /\
    forall p,
      (w sb + 20 < x p + vx p -> x (advance (w sb) (h sb) p) = -20) /\
      (x p + vx p < -20 -> x (advance (w sb) (h sb) p) = w sb + 20) /\
      (h sb + 20 < y p + vy p -> y (advance (w sb) (h sb) p) = -20) /\
      (y p + vy p < -20 -> y (advance (w sb) (h sb) p) = h sb + 20).
Proof.
  split.
  - exists (before_first_step env_one), (particle_from env_one 0).
    split; [unfold exec; now rewrite setup_spec|].
    split; [now left|].
    unfold in_box. cbn. lra.
  - intros e. exists (before_first_step e), (after_effect e).
    assert (Hw : 0 <= w (before_first_step e))
      by (cbn; apply IZR_le, N2Z.is_nonneg).
    assert (Hh : 0 <= h (before_first_step e))
      by (cbn; apply IZR_le, N2Z.is_nonneg).
    split; [unfold exec; now rewrite setup_spec|].
    split; [unfold exec; now rewrite step_spec|].
    split; [apply mount_spec|].
    split; [reflexivity|]. split; [reflexivity|].
    split.
    { intros i p Hp.
      assert (Hi : (i < 36)%nat).
      { apply lookup_lt_Some in Hp.
        unfold before_first_step, after_resize in Hp. cbn [particles] in Hp.
        now rewrite initial_particles_length in Hp. }
      cbn [before_first_step after_resize particles] in Hp.
      rewrite initial_particles_lookup in Hp by exact Hi.
      injection Hp as <-. unfold particle_from. cbn [x y].
      split; f_equal; f_equal; lia. }
    split; [reflexivity|].
    split.
    { apply List.Forall_forall. intros p Hp. cbn [after_effect after_step particles] in Hp.
      apply in_map_iff in Hp. destruct Hp as (q & <- & _).
      now apply advance_in_box. }
    intros p. rewrite advance_x, advance_y.
    repeat split; intros; auto using wrap_above, wrap_below.
Qed.

(** * Further properties of the component *)

(** ** The scale factor and the buffer *)

Lemma Math_floor_ge z v : IZR z <= v -> (z <= Math_floor v)%Z.
Proof.
  intros H. destruct (Math_floor_bounds v) as [_ Hv].
  assert (Hlt : IZR z < IZR (Math_floor v + 1)) by (rewrite plus_IZR; lra).
  apply lt_IZR in Hlt. lia.
Qed.

Lemma mount_dpi_ge_1 e : 1 <= Rmax 1 (or_one (devicePixelRatio e)).
Proof. apply Rmax_l. Qed.

Lemma low_ratio_dpi v : ratio_at_most_one v -> Rmax 1 (or_one v) = 1.
Proof.
  intros H. destruct v as [d|]; cbn in *.
  - destruct (Req_dec_T d 0); apply Rmax_left; lra.
  - apply Rmax_left. lra.
Qed.

(** X1. The scale factor is at least 1 in every world reached from a mount,
    so a resize never makes the backing buffer smaller than the content
    box: in each dimension the buffer has at least as many pixels as the
    box has logical units. *)
Theorem buffer_covers_surface (e : Env) (evs : list Event) :
  exists s0 s s',
    mount e = Some s0 /\ run evs s0 = Some s /\
    resize s = Some (tt, s') /\
    1 <= dpi s' /\
    (Z.of_N (clientWidth (env s)) <= canvas_width s')%Z /\
    (Z.of_N (clientHeight (env s)) <= canvas_height s')%Z.
Proof.
  set (s := after_events evs (after_effect e)).
  exists (after_effect e), s, (after_resize s).
  split; [apply mount_spec|]. split; [apply run_spec|].
  split; [apply resize_spec|].
  assert (Hd : 1 <= dpi s).
  { unfold s. rewrite mount_dpi. apply mount_dpi_ge_1. }
  split; [exact Hd|].
  assert (Hpos : forall n : N, IZR (Z.of_N n) <= IZR (Z.of_N n) * dpi s).
  { intros n. assert (0 <= IZR (Z.of_N n)) by apply IZR_le, N2Z.is_nonneg.
    nra. }
  split; apply Math_floor_ge, Hpos.
Qed.

(** X2. When the pixel ratio at mount is undefined, zero, negative or at
    most 1, the scale factor is exactly 1: every resize makes the buffer
    exactly as large as the content box and sets the identity scale. *)
Theorem low_ratio_buffer_is_box (e : Env) (evs : list Event) :
  ratio_at_most_one (devicePixelRatio e) ->
  exists s0 s s',
    mount e = Some s0 /\ run evs s0 = Some s /\
    resize s = Some (tt, s') /\
    dpi s' = 1 /\
    canvas_width s' = Z.of_N (clientWidth (env s)) /\
    canvas_height s' = Z.of_N (clientHeight (env s)) /\
    last (log s') = Some (SetTransform 1 0 0 1 0 0).
Proof.
  intros Hr.
  set (s := after_events evs (after_effect e)).
  exists (after_effect e), s, (after_resize s).
  split; [apply mount_spec|]. split; [apply run_spec|].
  split; [apply resize_spec|].
  assert (Hd : dpi s = 1).
  { unfold s. rewrite mount_dpi. now apply low_ratio_dpi. }
  unfold after_resize. cbn [dpi canvas_width canvas_height log].
  rewrite Hd, !Rmult_1_r, !Math_floor_IZR.
  repeat split. apply last_of_three.
Qed.

(** A mount where [devicePixelRatio] is not defined, then a shrinking box. *)
Lemma low_ratio_buffer_is_box_witness :
  ratio_at_most_one (devicePixelRatio env_no_ratio) /\
  exists s0 s s',
    mount env_no_ratio = Some s0 /\ run shrink s0 = Some s /\
    resize s = Some (tt, s') /\
    dpi s' = 1 /\
    canvas_width s' = Z.of_N (clientWidth (env s)) /\
    canvas_height s' = Z.of_N (clientHeight (env s)) /\
    last (log s') = Some (SetTransform 1 0 0 1 0 0).
Proof.
  split; [exact I|].
  apply (low_ratio_buffer_is_box env_no_ratio shrink). exact I.
Defined.

(** X16. In every world reached from a mount the buffer matches the
    logical size in force: logical width and height are the (integer,
    non-negative) content box seen by the last resize, and the buffer is
    the floor of that size times the scale factor.  Frames, environment
    changes and the cleanup never touch any of them. *)
Theorem surface_consistent (e : Env) (evs : list Event) :
  exists s0 s,
    mount e = Some s0 /\ run evs s0 = Some s /\
    canvas_width s = Math_floor (w s * dpi s) /\
    canvas_height s = Math_floor (h s * dpi s) /\
    (exists cw ch : N, w s = IZR (Z.of_N cw) /\ h s = IZR (Z.of_N ch)) /\
    forall ev,
      ev <> ResizeNotification ->
      exists s',
        exec (handle ev) s = Some s' /\
        w s' = w s /\ h s' = h s /\ dpi s' = dpi s /\
        canvas_width s' = canvas_width s /\
        canvas_height s' = canvas_height s.
Proof.
  set (P := fun s' : World =>
              canvas_width s' = Math_floor (w s' * dpi s') /\
              canvas_height s' = Math_floor (h s' * dpi s') /\
              exists cw ch : N,
                w s' = IZR (Z.of_N cw) /\ h s' = IZR (Z.of_N ch)).
  set (s := after_events evs (after_effect e)).
  exists (after_effect e), s.
  split; [apply mount_spec|]. split; [apply run_spec|].
  assert (HP : P s).
  { apply (reachable_ind P).
    - unfold P. cbn. repeat split. eauto.
    - intros ev s' H. apply (after_event_ind P); try (intros; assumption).
      intros s'' _. unfold P. cbn. repeat split. eauto. }
  destruct HP as (H1 & H2 & H3).
  split; [exact H1|]. split; [exact H2|]. split; [exact H3|].
  intros ev Hev. exists (after_event ev s).
  split; [apply handle_spec|].
  destruct ev; try contradiction; cbn [after_event]; repeat split;
    try reflexivity;
    apply (after_frame_ind
             (fun s' => _ s' = _ s)); try reflexivity; intros s' H; exact H.
Qed.

(** ** Random draws *)

(** X5. [Math.random] is consulted 180 times while the effect runs (five
    draws for each of the 36 particles) and never again: no frame, resize,
    environment change or cleanup takes a draw. *)
Theorem random_only_at_mount (e : Env) (evs : list Event) :
  exists sb s0 s,
    exec setup (initial_world e) = Some sb /\
    mount e = Some s0 /\ run evs s0 = Some s /\
    rng_pos (initial_world e) = 0%nat /\
    rng_pos sb = 180%nat /\ rng_pos s0 = 180%nat /\ rng_pos s = 180%nat.
Proof.
  exists (before_first_step e), (after_effect e),
         (after_events evs (after_effect e)).
  split; [unfold exec; now rewrite setup_spec|].
  split; [apply mount_spec|]. split; [apply run_spec|].
  repeat split.
  apply (reachable_ind (fun s => rng_pos s = 180%nat)); [reflexivity|].
  intros ev s H.
  apply (after_event_ind (fun s' => rng_pos s' = 180%nat));
    try (intros; assumption).
Qed.

(** ** Order of the calls made by the effect *)

(** X12. The effect sizes the surface before it draws: its first
    [clearRect] comes after the observer is attached and after the buffer
    size and the transform are set, and it covers the content box, not the
    0 by 0 size the closure variables start with. *)
Theorem mount_call_order (e : Env) :
  exists s0 before after,
    mount e = Some s0 /\
    log s0 = before
               ++ ClearRect 0 0 (IZR (Z.of_N (clientWidth e)))
                                (IZR (Z.of_N (clientHeight e)))
               :: after /\
    Forall (fun c => is_clear c = false) before /\
    In Observe before /\
    In (SetCanvasWidth (canvas_width s0)) before /\
    In (SetCanvasHeight (canvas_height s0)) before /\
    In (SetTransform (dpi s0) 0 0 (dpi s0) 0 0) before.
Proof.
  exists (after_effect e).
  exists [ Observe;
           SetCanvasWidth (canvas_width (after_effect e));
           SetCanvasHeight (canvas_height (after_effect e));
           SetTransform (dpi (after_effect e)) 0 0 (dpi (after_effect e)) 0 0 ].
  eexists.
  split; [apply mount_spec|].
  split; [reflexivity|].
  split; [now repeat constructor|].
  repeat split; [now left | now right; left | now do 2 right; left
                 | now do 3 right; left].
Qed.

(** ** Counting calls *)

Lemma count_calls_app f l1 l2 :
  count_calls f (l1 ++ l2) = (count_calls f l1 + count_calls f l2)%nat.
Proof. unfold count_calls. now rewrite List.filter_app, length_app. Qed.

Lemma count_calls_flat_map_le {A} f (g : A -> list Call) (l : list A) k :
  (forall a, (count_calls f (g a) <= k)%nat) ->
  (count_calls f (flat_map g l) <= k * length l)%nat.
Proof.
  intros Hg. induction l as [|a l IH]; cbn [flat_map length]; [cbn; lia|].
  rewrite count_calls_app. specialize (Hg a). lia.
Qed.

Lemma count_calls_flat_map_0 {A} f (g : A -> list Call) (l : list A) :
  (forall a, count_calls f (g a) = 0%nat) ->
  count_calls f (flat_map g l) = 0%nat.
Proof.
  intros Hg.
  assert (H : (count_calls f (flat_map g l) <= 0 * length l)%nat).
  { apply count_calls_flat_map_le. intros a. now rewrite Hg. }
  lia.
Qed.

Lemma links_of_count_0 f ps :
  (forall p q, count_calls f (stroke_link p q) = 0%nat) ->
  count_calls f (links_of ps) = 0%nat.
Proof.
  intros Hf. induction ps as [|p ps IH]; [reflexivity|].
  cbn [links_of]. rewrite count_calls_app, IH, Nat.add_0_r.
  apply count_calls_flat_map_0. intros q. unfold link_calls.
  destruct (Rltb _ 120); [apply Hf | reflexivity].
Qed.

Lemma step_counts f s :
  (forall p q, count_calls f (stroke_link p q) = 0%nat) ->
  (forall p, count_calls f (disc_calls p) = 0%nat) ->
  count_calls f (log (after_step s)) =
    (count_calls f (log s)
     + count_calls f [ClearRect 0 0 (w s) (h s)]
     + count_calls f [RequestAnimationFrame (S (raf_last s))])%nat.
Proof.
  intros Hl Hd. unfold after_step. cbn [log].
  rewrite !count_calls_app, links_of_count_0 by exact Hl.
  rewrite count_calls_flat_map_0 by exact Hd. lia.
Qed.

Lemma step_clears s :
  count_calls is_clear (log (after_step s)) = S (count_calls is_clear (log s)).
Proof. rewrite step_counts by reflexivity. cbn. lia. Qed.

Lemma step_requests s :
  count_calls is_request (log (after_step s)) =
  S (count_calls is_request (log s)).
Proof. rewrite step_counts by reflexivity. cbn. lia. Qed.

(** ** The running loop *)

Lemma live_mount e : live (after_effect e).
Proof. repeat split. Qed.

Lemma live_event ev s :
  no_unmount [ev] = true -> live s ->
  live (after_event ev s) /\
  rafRef (after_event ev s) = (rafRef s + frames [ev])%nat /\
  count_calls is_clear (log (after_event ev s)) =
    (count_calls is_clear (log s) + frames [ev])%nat /\
  count_calls is_request (log (after_event ev s)) =
    (count_calls is_request (log s) + frames [ev])%nat.
Proof.
  intros Hev (Hcb & Hlast & Hro).
  destruct ev; cbn [after_event]; try discriminate.
  - cbn. rewrite !Nat.add_0_r. repeat split; assumption.
  - cbn. rewrite !Nat.add_0_r. repeat split; assumption.
  - rewrite Hro. unfold after_resize. cbn [frames List.filter length].
    rewrite !Nat.add_0_r.
    cbn [raf_callbacks raf_last rafRef ro_observing log].
    rewrite !count_calls_app. cbn. rewrite !Nat.add_0_r.
    repeat split; assumption.
  - rewrite (after_frame_one _ _ Hcb).
    rewrite step_clears, step_requests.
    cbn [frames List.filter length].
    unfold after_step, live. cbn. rewrite Hlast.
    unfold count_calls. repeat split; try assumption; lia.
Qed.

Lemma no_unmount_cons ev evs :
  no_unmount (ev :: evs) = true ->
  no_unmount [ev] = true /\ no_unmount evs = true.
Proof.
  unfold no_unmount. cbn. intros H. apply andb_true_iff in H.
  destruct H as [H1 H2]. now rewrite H1, H2.
Qed.

Lemma frames_cons ev evs : frames (ev :: evs) = (frames [ev] + frames evs)%nat.
Proof. unfold frames. cbn. now destruct ev. Qed.

Lemma live_events evs : forall s,
  no_unmount evs = true -> live s ->
  live (after_events evs s) /\
  rafRef (after_events evs s) = (rafRef s + frames evs)%nat /\
  count_calls is_clear (log (after_events evs s)) =
    (count_calls is_clear (log s) + frames evs)%nat /\
  count_calls is_request (log (after_events evs s)) =
    (count_calls is_request (log s) + frames evs)%nat.
Proof.
  induction evs as [|ev evs IH]; intros s Hev Hs.
  - cbn. rewrite !Nat.add_0_r. auto.
  - apply no_unmount_cons in Hev. destruct Hev as [H1 H2].
    destruct (live_event ev s H1 Hs) as (L1 & L2 & L3 & L4).
    destruct (IH _ H2 L1) as (K1 & K2 & K3 & K4).
    change (after_events (ev :: evs) s)
      with (after_events evs (after_event ev s)).
    rewrite frames_cons. repeat split; try apply K1; lia.
Qed.

Lemma mount_counts e :
  count_calls is_clear (log (after_effect e)) = 1%nat /\
  count_calls is_request (log (after_effect e)) = 1%nat.
Proof.
  unfold after_effect. rewrite step_clears, step_requests. split; reflexivity.
Qed.

(** X3. As long as the cleanup has not run, the loop is alive: after any
    sequence of frames, resize notifications and environment changes
    exactly one frame request of the component is pending, [rafRef] holds
    the handle the scheduler returned for it, and the observer is still
    attached. *)
Theorem loop_stays_alive (e : Env) (evs : list Event) :
  no_unmount evs = true ->
  exists s0 s,
    mount e = Some s0 /\ run evs s0 = Some s /\
    raf_callbacks s = [rafRef s] /\
    ro_observing s = true.
Proof.
  intros Hev. exists (after_effect e), (after_events evs (after_effect e)).
  split; [apply mount_spec|]. split; [apply run_spec|].
  destruct (live_events evs _ Hev (live_mount e)) as ((L1 & L2 & L3) & _).
  split; assumption.
Qed.

(** Two frames around a resize notification. *)
Lemma loop_stays_alive_witness :
  no_unmount [AnimationFrame; ResizeNotification; AnimationFrame] = true /\
  exists s0 s,
    mount env_one = Some s0 /\
    run [AnimationFrame; ResizeNotification; AnimationFrame] s0 = Some s /\
    raf_callbacks s = [rafRef s] /\
    ro_observing s = true.
Proof.
  split; [reflexivity|].
  apply (loop_stays_alive env_one
           [AnimationFrame; ResizeNotification; AnimationFrame]).
  reflexivity.
Defined.

(** X4. Until the cleanup runs, [step] runs once when the effect runs and
    once for each animation frame, never twice in a frame and never on a
    resize: the log holds one [clearRect] and one [requestAnimationFrame]
    per run of [step], that is one more than the number of frames. *)
Theorem one_step_per_frame (e : Env) (evs : list Event) :
  no_unmount evs = true ->
  exists s0 s,
    mount e = Some s0 /\ run evs s0 = Some s /\
    count_calls is_clear (log s) = S (frames evs) /\
    count_calls is_request (log s) = S (frames evs).
Proof.
  intros Hev. exists (after_effect e), (after_events evs (after_effect e)).
  split; [apply mount_spec|]. split; [apply run_spec|].
  destruct (live_events evs _ Hev (live_mount e)) as (_ & _ & K1 & K2).
  destruct (mount_counts e) as [M1 M2].
  rewrite K1, K2, M1, M2. split; reflexivity.
Qed.

Lemma one_step_per_frame_witness :
  no_unmount [AnimationFrame; ResizeNotification; AnimationFrame] = true /\
  exists s0 s,
    mount env_one = Some s0 /\
    run [AnimationFrame; ResizeNotification; AnimationFrame] s0 = Some s /\
    count_calls is_clear (log s) =
      S (frames [AnimationFrame; ResizeNotification; AnimationFrame]) /\
    count_calls is_request (log s) =
      S (frames [AnimationFrame; ResizeNotification; AnimationFrame]).
Proof.
  split; [reflexivity|].
  apply (one_step_per_frame env_one
           [AnimationFrame; ResizeNotification; AnimationFrame]).
  reflexivity.
Defined.

(** ** What the link phase strokes *)

Lemma Rltb_true_inv a b : Rltb a b = true -> a < b.
Proof. unfold Rltb. now destruct (Rlt_dec a b). Qed.

Lemma distance_nonneg p q : 0 <= distance p q.
Proof. unfold distance. apply sqrt_pos. Qed.

Lemma link_calls_styles p q : Forall stroke_style_ok (link_calls p q).
Proof.
  unfold link_calls. destruct (Rltb _ 120) eqn:E; [|constructor].
  apply Rltb_true_inv in E. pose proof (distance_nonneg p q).
  unfold stroke_link, link_alpha.
  repeat first [apply List.Forall_nil | apply List.Forall_cons];
    cbn; auto.
  repeat split; try reflexivity; lra.
Qed.

Lemma link_row_styles p ps :
  Forall stroke_style_ok (flat_map (link_calls p) ps).
Proof.
  induction ps as [|q ps IH]; [constructor|].
  cbn [flat_map]. apply Forall_app. split; [apply link_calls_styles|exact IH].
Qed.

Lemma links_of_styles ps : Forall stroke_style_ok (links_of ps).
Proof.
  induction ps as [|p ps IH]; [constructor|].
  cbn [links_of]. apply Forall_app. split; [apply link_row_styles|exact IH].
Qed.

Lemma disc_calls_styles ps : Forall stroke_style_ok (flat_map disc_calls ps).
Proof.
  induction ps as [|p ps IH]; [constructor|].
  cbn [flat_map]. apply Forall_app. split; [|exact IH].
  unfold disc_calls.
  repeat first [apply List.Forall_nil | apply List.Forall_cons]; exact I.
Qed.

(** X6. Every stroke style a frame sets is the link colour
    [rgba(0,194,255,a)] with an opacity [a] in (0, 0.35]: the opacity
    computed from the distance is never zero, negative or above 0.35, so
    the colour string is always a valid one. *)
Theorem stroke_styles_in_range (s : World) :
  exists s' added,
    step s = Some (tt, s') /\
    log s' = log s ++ added /\
    Forall stroke_style_ok added.
Proof.
  eexists (after_step s), _. split; [apply step_spec|].
  split; [reflexivity|].
  apply Forall_app. split; [now repeat constructor|].
  apply Forall_app. split; [apply links_of_styles|].
  apply Forall_app. split; [apply disc_calls_styles|].
  now repeat constructor.
Qed.

Lemma link_calls_strokes p q :
  (count_calls is_stroke (link_calls p q) <= 1)%nat /\
  length (link_calls p q) =
    (6 * count_calls is_stroke (link_calls p q))%nat.
Proof. unfold link_calls. destruct (Rltb _ 120); cbn; lia. Qed.

Lemma link_row_strokes p ps :
  (count_calls is_stroke (flat_map (link_calls p) ps) <= length ps)%nat /\
  length (flat_map (link_calls p) ps) =
    (6 * count_calls is_stroke (flat_map (link_calls p) ps))%nat.
Proof.
  induction ps as [|q ps [IH1 IH2]]; [cbn; lia|].
  cbn [flat_map length]. rewrite count_calls_app, length_app.
  destruct (link_calls_strokes p q). lia.
Qed.

Lemma links_of_strokes ps :
  (2 * count_calls is_stroke (links_of ps) <= length ps * (length ps - 1))%nat /\
  length (links_of ps) = (6 * count_calls is_stroke (links_of ps))%nat.
Proof.
  induction ps as [|p ps [IH1 IH2]]; [cbn; lia|].
  cbn [links_of length]. rewrite count_calls_app, length_app.
  destruct (link_row_strokes p ps) as [R1 R2].
  split; [|lia].
  replace (S (length ps) - 1)%nat with (length ps) by lia.
  destruct (length ps) as [|m]; [lia|].
  replace (S m - 1)%nat with m in IH1 by lia. nia.
Qed.

Lemma disc_calls_counts ps :
  count_calls is_fill (flat_map disc_calls ps) = (2 * length ps)%nat /\
  count_calls is_stroke (flat_map disc_calls ps) = 0%nat.
Proof.
  split.
  - induction ps as [|p ps IH]; [reflexivity|].
    cbn [flat_map length]. rewrite count_calls_app, IH. cbn. lia.
  - now apply count_calls_flat_map_0.
Qed.

(** X7. A frame over [n] particles calls [stroke] at most [n (n - 1) / 2]
    times, once per linked pair, and calls [fill] exactly [2 n] times,
    [clearRect] once and [requestAnimationFrame] once, whatever the
    positions are: the drawing work of a frame is bounded by the square of
    the particle count. *)
Theorem frame_work_bounded (s : World) :
  exists s' added,
    step s = Some (tt, s') /\
    log s' = log s ++ added /\
    (2 * count_calls is_stroke added
       <= length (particles s) * (length (particles s) - 1))%nat /\
    count_calls is_fill added = (2 * length (particles s))%nat /\
    count_calls is_clear added = 1%nat /\
    count_calls is_request added = 1%nat.
Proof.
  eexists (after_step s), _. split; [apply step_spec|].
  split; [reflexivity|].
  rewrite !count_calls_app.
  destruct (links_of_strokes (particles s)) as [L1 _].
  destruct (disc_calls_counts (map (advance (w s) (h s)) (particles s)))
    as [D1 D2].
  rewrite D1, D2, length_map.
  rewrite (links_of_count_0 is_fill), (links_of_count_0 is_clear),
    (links_of_count_0 is_request) by reflexivity.
  rewrite (count_calls_flat_map_0 is_clear),
    (count_calls_flat_map_0 is_request) by reflexivity.
  cbn. repeat split; lia.
Qed.

(** ** Frames in sequence *)

Lemma live_frame s :
  live s ->
  after_event AnimationFrame s = after_step (with_raf s [] (raf_last s)) /\
  live (after_event AnimationFrame s).
Proof.
  intros Hs. split.
  - destruct Hs as (Hcb & _). cbn [after_event]. apply (after_frame_one _ _ Hcb).
  - apply (live_event AnimationFrame s); [reflexivity | exact Hs].
Qed.

(** ** Velocity and radius *)

(** C7. After any sequence of events every particle has the velocity and
    the radius it was created with.  Each event either leaves the particle
    array as it is, or (an animation frame) applies the position update
    once to every particle; neither changes a velocity or a radius.  Events
    other than an animation frame never move a particle.  And as long as
    the cleanup has not run, an animation frame does move every particle,
    once: its new position is its old position plus its velocity, wrapped
    once, with the same velocity and radius. *)
Theorem velocity_radius_constant (e : Env) (evs : list Event) :
  exists ps sa s0 s,
    Array_from 36 new_particle (initial_world e) = Some (ps, sa) /\
    mount e = Some s0 /\ run evs s0 = Some s /\
    map kinematics (particles s) = map kinematics ps /\
    (forall ev, exists s',
       exec (handle ev) s = Some s' /\
       map kinematics (particles s') = map kinematics ps /\
       (particles s' = particles s \/
        ev = AnimationFrame /\
        particles s' = map (advance (w s) (h s)) (particles s))) /\
    (forall ev, ev <> AnimationFrame ->
       exists s', exec (handle ev) s = Some s' /\
                  particles s' = particles s) /\
    (no_unmount evs = true ->
     exists s',
       exec (handle AnimationFrame) s = Some s' /\
       length (particles s') = length (particles s) /\
       forall i p, particles s !! i = Some p ->
         exists p',
           particles s' !! i = Some p' /\
           x p' = wrap (w s) (x p + vx p) /\
           y p' = wrap (h s) (y p + vy p) /\
           vx p' = vx p /\ vy p' = vy p /\ r p' = r p).
Proof.
  set (s := after_events evs (after_effect e)).
  eexists _, _, (after_effect e), s.
  split; [apply Array_from_spec|].
  split; [apply mount_spec|]. split; [apply run_spec|].
  assert (Hk : map kinematics (particles s) =
               map kinematics (initial_particles e 0 36)).
  { apply (reachable_ind
             (fun s' => map kinematics (particles s') =
                        map kinematics (initial_particles e 0 36))).
    - cbn [after_effect after_step particles]. apply kinematics_advance.
    - intros ev s' H. now rewrite kinematics_kept. }
  assert (Hp : pending_ok s).
  { apply (reachable_ind pending_ok); [apply pending_ok_mount|].
    intros ev s'. apply pending_ok_kept. }
  split; [exact Hk|]. split; [|split].
  - intros ev. exists (after_event ev s).
    split; [apply handle_spec|].
    split; [now rewrite kinematics_kept|].
    destruct ev; cbn [after_event]; auto.
    + left. now destruct (ro_observing s).
    + destruct Hp as [H|H].
      * left. now rewrite (after_frame_none _ H).
      * right. split; [reflexivity|]. now rewrite (after_frame_one _ _ H).
  - intros ev Hev. exists (after_event ev s).
    split; [apply handle_spec|].
    destruct ev; cbn [after_event]; try reflexivity; try contradiction.
    now destruct (ro_observing s).
  - intros Hev. exists (after_event AnimationFrame s).
    split; [apply handle_spec|].
    destruct (live_events evs _ Hev (live_mount e)) as (Hl & _).
    destruct (live_frame s Hl) as [-> _].
    cbn [after_step particles with_raf w h].
    split; [apply length_map|].
    intros i p Hi. exists (advance (w s) (h s) p).
    split; [now rewrite list_lookup_fmap, Hi|].
    destruct (advance_kinematics (w s) (h s) p) as (Hvx & Hvy & Hrad).
    rewrite advance_x, advance_y. auto.
Qed.

(** X8. While the loop is alive, an animation frame leaves every particle
    inside the surface extended by the margin, measured against the logical
    size in force in that frame, whatever resizes and environment changes
    came before it. *)
Theorem frame_restores_box (e : Env) (evs : list Event) :
  no_unmount evs = true ->
  exists s0 s s',
    mount e = Some s0 /\ run evs s0 = Some s /\
    exec (handle AnimationFrame) s = Some s' /\
    w s' = w s /\ h s' = h s /\
    Forall (in_box (w s') (h s')) (particles s').
Proof.
  intros Hev.
  set (s := after_events evs (after_effect e)).
  exists (after_effect e), s, (after_event AnimationFrame s).
  split; [apply mount_spec|]. split; [apply run_spec|].
  split; [apply handle_spec|].
  destruct (live_events evs _ Hev (live_mount e)) as (Hl & _).
  destruct (live_frame s Hl) as [-> _].
  destruct (surface_nonneg e evs) as [Hw Hh]. fold s in Hw, Hh.
  split; [reflexivity|]. split; [reflexivity|].
  apply List.Forall_forall. intros p Hp.
  cbn [after_step particles with_raf w h] in *.
  apply in_map_iff in Hp. destruct Hp as (q & <- & _).
  now apply advance_in_box.
Qed.

(** A frame after the box has shrunk to 400 by 300. *)
Lemma frame_restores_box_witness :
  no_unmount shrink = true /\
  exists s0 s s',
    mount env_ratio_2 = Some s0 /\ run shrink s0 = Some s /\
    exec (handle AnimationFrame) s = Some s' /\
    w s' = w s /\ h s' = h s /\
    Forall (in_box (w s') (h s')) (particles s').
Proof.
  split; [reflexivity|].
  apply (frame_restores_box env_ratio_2 shrink). reflexivity.
Defined.

Lemma frames_compose_from n : forall s,
  live s ->
  live (after_events (repeat AnimationFrame n) s) /\
  particles (after_events (repeat AnimationFrame n) s) =
    map (Nat.iter n (advance (w s) (h s))) (particles s) /\
  w (after_events (repeat AnimationFrame n) s) = w s /\
  h (after_events (repeat AnimationFrame n) s) = h s.
Proof.
  induction n as [|n IH]; intros s Hs.
  - cbn. repeat split; try apply Hs. now rewrite map_id.
  - cbn [repeat].
    change (after_events (AnimationFrame :: repeat AnimationFrame n) s)
      with (after_events (repeat AnimationFrame n)
              (after_event AnimationFrame s)).
    destruct (live_frame s Hs) as [E Hs'].
    destruct (IH _ Hs') as (K1 & K2 & K3 & K4).
    split; [exact K1|]. rewrite K2, K3, K4, E.
    cbn [after_step particles w h with_raf].
    repeat split.
    rewrite map_map. apply map_ext. intros p.
    now rewrite Nat.iter_succ_r.
Qed.

(** X9. While the loop is alive, [n] animation frames in a row, with no
    resize between them, apply the position update [n] times to each
    particle and change nothing else of it; the loop is still alive
    afterwards. *)
Theorem frames_compose (s : World) (n : nat) :
  live s ->
  exists s',
    run (repeat AnimationFrame n) s = Some s' /\
    particles s' = map (Nat.iter n (advance (w s) (h s))) (particles s) /\
    w s' = w s /\ h s' = h s /\ live s'.
Proof.
  intros Hs. exists (after_events (repeat AnimationFrame n) s).
  split; [apply run_spec|].
  destruct (frames_compose_from n s Hs) as (K1 & K2 & K3 & K4).
  repeat split; try assumption; apply K1.
Qed.

Lemma frames_compose_witness :
  live world_drift /\
  exists s',
    run (repeat AnimationFrame 3) world_drift = Some s' /\
    particles s' =
      map (Nat.iter 3 (advance (w world_drift) (h world_drift)))
          (particles world_drift) /\
    w s' = w world_drift /\ h s' = h world_drift /\ live s'.
Proof.
  split; [repeat split|].
  apply (frames_compose world_drift 3). repeat split.
Defined.

(** ** Ranges fixed at creation *)

Lemma particle_from_ranges e k :
  (forall j, 0 <= random e j < 1) -> in_creation_ranges (particle_from e k).
Proof.
  intros Hr. unfold in_creation_ranges, particle_from. cbn [vx vy r].
  pose proof (Hr (S (S k))). pose proof (Hr (S (S (S k)))).
  pose proof (Hr (S (S (S (S k))))). lra.
Qed.

Lemma initial_particles_ranges e n : forall k,
  (forall j, 0 <= random e j < 1) ->
  Forall in_creation_ranges (initial_particles e k n).
Proof.
  induction n as [|n IH]; intros k Hr; cbn [initial_particles];
    constructor; [now apply particle_from_ranges | now apply IH].
Qed.

Lemma ranges_by_kinematics ps qs :
  map kinematics ps = map kinematics qs ->
  Forall in_creation_ranges qs -> Forall in_creation_ranges ps.
Proof.
  revert qs. induction ps as [|p ps IH]; intros [|q qs] E Hq;
    try discriminate; [constructor|].
  injection E as Evx Evy Er Eps. inversion Hq as [|? ? Hq1 Hq2]; subst.
  constructor; [|now apply (IH qs)].
  unfold in_creation_ranges in *. now rewrite Evx, Evy, Er.
Qed.

(** X11. With [Math.random()] in [0, 1), the ranges fixed at creation hold
    for every particle in every world reached from the mount: each velocity
    component stays in [-0.125, 0.125) and the radius in [1.2, 3], so the
    glow disc always has a radius in [6, 15] and always ends before the
    distance 16 at which its gradient becomes transparent. *)
Theorem creation_ranges_persist (e : Env) (evs : list Event) :
  (forall k, 0 <= random e k < 1) ->
  exists s0 s,
    mount e = Some s0 /\ run evs s0 = Some s /\
    Forall (fun p => in_creation_ranges p /\
                     6 <= r p * 5 <= 15 /\
                     ~ transparent_at (glow p) (r p * 5))
           (particles s).
Proof.
  intros Hr.
  set (s := after_events evs (after_effect e)).
  exists (after_effect e), s.
  split; [apply mount_spec|]. split; [apply run_spec|].
  assert (Hk : map kinematics (particles s) =
               map kinematics (initial_particles e 0 36)).
  { apply (reachable_ind
             (fun s' => map kinematics (particles s') =
                        map kinematics (initial_particles e 0 36))).
    - cbn [after_effect after_step particles]. apply kinematics_advance.
    - intros ev s' H. now rewrite kinematics_kept. }
  pose proof (ranges_by_kinematics _ _ Hk (initial_particles_ranges e 36 0 Hr))
    as Hall.
  eapply List.Forall_impl; [|exact Hall].
  intros p Hp. split; [exact Hp|].
  destruct Hp as (_ & _ & Hrad).
  split; [lra|]. rewrite transparent_at_glow. lra.
Qed.

Lemma creation_ranges_persist_witness :
  (forall k, 0 <= random env_one k < 1) /\
  exists s0 s,
    mount env_one = Some s0 /\
    run [AnimationFrame; ResizeNotification] s0 = Some s /\
    Forall (fun p => in_creation_ranges p /\
                     6 <= r p * 5 <= 15 /\
                     ~ transparent_at (glow p) (r p * 5))
           (particles s).
Proof.
  split; [intros k; cbn; lra|].
  apply (creation_ranges_persist env_one [AnimationFrame; ResizeNotification]).
  intros k. cbn. lra.
Defined.

(** * Class attributes of the presentational components *)

Lemma string_app_assoc (a b c : string) : (a +:+ b) +:+ c = a +:+ (b +:+ c).
Proof.
  induction a as [|ch a IH]; [reflexivity|].
  change (String ch ((a +:+ b) +:+ c) = String ch (a +:+ (b +:+ c))).
  now rewrite IH.
Qed.

Lemma string_app_nil_r (a : string) : a +:+ "" = a.
Proof.
  induction a as [|ch a IH]; [reflexivity|].
  change (String ch (a +:+ "") = String ch a). now rewrite IH.
Qed.

Lemma tokens_from_word a : forall cur b,
  no_space a = true ->
  tokens_from cur (a +:+ b) = tokens_from (cur +:+ a) b.
Proof.
  induction a as [|ch a IH]; intros cur b Ha.
  - cbn. now rewrite string_app_nil_r.
  - cbn in Ha. apply andb_true_iff in Ha. destruct Ha as [Hc Ha].
    apply negb_true_iff in Hc.
    change (String ch a +:+ b) with (String ch (a +:+ b)).
    change (tokens_from cur (String ch (a +:+ b)))
      with (if is_space ch then flush cur ++ tokens_from "" (a +:+ b)
            else tokens_from (cur +:+ String ch "") (a +:+ b)).
    rewrite Hc, IH by exact Ha. now rewrite string_app_assoc.
Qed.

Lemma flush_class_name t : class_name t = true -> flush t = [t].
Proof.
  unfold class_name, truthy, flush. intros H.
  apply andb_true_iff in H. destruct H as [H _].
  apply negb_true_iff in H. now rewrite H.
Qed.

Lemma class_name_no_space t : class_name t = true -> no_space t = true.
Proof.
  unfold class_name. intros H. apply andb_true_iff in H. apply H.
Qed.

Lemma tokens_cons t b :
  class_name t = true -> tokens (t +:+ " " +:+ b) = t :: tokens b.
Proof.
  intros Ht. unfold tokens.
  rewrite tokens_from_word by now apply class_name_no_space.
  change (tokens_from ("" +:+ t) (" " +:+ b))
    with (flush t ++ tokens_from "" b).
  now rewrite flush_class_name.
Qed.

Lemma tokens_single t : class_name t = true -> tokens t = [t].
Proof.
  intros Ht. unfold tokens. rewrite <- (string_app_nil_r t) at 1.
  rewrite tokens_from_word by now apply class_name_no_space.
  change (tokens_from ("" +:+ t) "") with (flush t).
  now apply flush_class_name.
Qed.

Lemma join_cons t x l :
  join " " (t :: x :: l) = t +:+ " " +:+ join " " (x :: l).
Proof. reflexivity. Qed.

Lemma tokens_join_then l : forall cn,
  Forall (fun t => class_name t = true) l ->
  tokens (join " " (l ++ [cn])) = l ++ tokens cn.
Proof.
  induction l as [|t l IH]; intros cn Hl; [reflexivity|].
  inversion Hl as [|? ? Ht Hl']; subst.
  specialize (IH cn Hl').
  destruct l as [|x l]; cbn [app] in *.
  - rewrite join_cons, tokens_cons by exact Ht. reflexivity.
  - rewrite join_cons, tokens_cons by exact Ht. now rewrite IH.
Qed.

Lemma tokens_join_names l :
  Forall (fun t => class_name t = true) l -> tokens (join " " l) = l.
Proof.
  induction l as [|t l IH]; intros Hl; [reflexivity|].
  inversion Hl as [|? ? Ht Hl']; subst.
  destruct l as [|x l]; [now apply tokens_single|].
  rewrite join_cons, tokens_cons by exact Ht. now rewrite IH.
Qed.

Lemma truthy_false s : truthy s = false -> s = "".
Proof.
  unfold truthy. intros H. apply negb_false_iff in H.
  now apply String.eqb_eq in H.
Qed.

(** X13. With well-formed module class names, the class attribute of a
    [Button] holds exactly these classes, in this order: [styles.root],
    then [styles.primary] when the variant is ['primary'], then
    [styles.cta] when [cta] is set, then the classes of the caller's
    [className].  An empty [className] adds nothing, not even a
    separator. *)
Theorem Button_class_tokens {V} (styles : ButtonCss.styles)
    (children : V) (variant : string) (cta : bool) (className : string)
    (props : V) :
  class_name (ButtonCss.root styles) = true ->
  class_name (ButtonCss.primary styles) = true ->
  class_name (ButtonCss.cta styles) = true ->
  exists c,
    Button styles children variant cta className props =
      Elem "button" [Str "className" c; Spread props] [Slot children] /\
    tokens c =
      [ButtonCss.root styles]
        ++ (if String.eqb variant "primary"
            then [ButtonCss.primary styles] else [])
        ++ (if cta then [ButtonCss.cta styles] else [])
        ++ tokens className /\
    (className = "" ->
     c = join " " ([ButtonCss.root styles]
                     ++ (if String.eqb variant "primary"
                         then [ButtonCss.primary styles] else [])
                     ++ (if cta then [ButtonCss.cta styles] else []))).
Proof.
  intros Hr Hp Hc. eexists. split; [reflexivity|].
  set (names := [ButtonCss.root styles]
                  ++ (if String.eqb variant "primary"
                      then [ButtonCss.primary styles] else [])
                  ++ (if cta then [ButtonCss.cta styles] else [])).
  assert (Hn : Forall (fun t => class_name t = true) names).
  { unfold names. destruct (String.eqb variant "primary"), cta;
      repeat constructor; assumption. }
  assert (E : (let classes := [ButtonCss.root styles] in
               let classes := if String.eqb variant "primary"
                              then classes ++ [ButtonCss.primary styles]
                              else classes in
               let classes := if cta then classes ++ [ButtonCss.cta styles]
                              else classes in
               classes) = names).
  { unfold names. now destruct (String.eqb variant "primary"), cta. }
  cbv zeta in E. rewrite E.
  destruct (truthy className) eqn:Et.
  - split.
    + rewrite tokens_join_then by exact Hn. unfold names.
      now rewrite <- !app_assoc.
    + intros ->. discriminate.
  - apply truthy_false in Et. subst className. split.
    + rewrite tokens_join_names by exact Hn.
      change (tokens "") with (@nil string). now rewrite app_nil_r.
    + reflexivity.
Qed.

(** A primary call-to-action button with two classes of the caller's. *)
Lemma Button_class_tokens_witness :
  class_name "btn" = true /\ class_name "btn-primary" = true /\
  class_name "btn-cta" = true /\
  exists c,
    Button (ButtonCss.mk "btn" "btn-primary" "btn-cta")
           tt "primary" true "wide tall" tt =
      Elem "button" [Str "className" c; Spread tt] [Slot tt] /\
    tokens c =
      ["btn"] ++ (if String.eqb "primary" "primary" then ["btn-primary"] else [])
              ++ (if true then ["btn-cta"] else [])
              ++ tokens "wide tall" /\
    ("wide tall" = "" ->
     c = join " " (["btn"]
                     ++ (if String.eqb "primary" "primary"
                         then ["btn-primary"] else [])
                     ++ (if true then ["btn-cta"] else []))).
Proof.
  split; [reflexivity|]. split; [reflexivity|]. split; [reflexivity|].
  apply (Button_class_tokens (ButtonCss.mk "btn" "btn-primary" "btn-cta")
           tt "primary" true "wide tall" tt); reflexivity.
Defined.

(** X14. With well-formed module class names, the class attribute of
    [Card], [CardPanel], [CardItem] and [Badge] holds the component's own
    class or classes followed by the classes of the caller's [className].
    The attribute is built by joining unconditionally, so with the default
    empty [className] it ends in a separator, which adds no class. *)
Theorem Card_family_class_tokens {V} (cs : CardCss.styles)
    (bs : BadgeCss.styles) (children : V) (className : string) (props : V) :
  class_name (CardCss.card cs) = true ->
  class_name (CardCss.panel cs) = true ->
  class_name (CardCss.item cs) = true ->
  class_name (BadgeCss.badge bs) = true ->
  (exists c, class_of (Card cs children className props) = Some c /\
             tokens c = CardCss.card cs :: tokens className) /\
  (exists c, class_of (CardPanel cs children className props) = Some c /\
             tokens c = CardCss.card cs :: CardCss.panel cs
                          :: tokens className) /\
  (exists c, class_of (CardItem cs children className props) = Some c /\
             tokens c = CardCss.card cs :: CardCss.item cs
                          :: tokens className) /\
  (exists c, class_of (Badge bs children className props) = Some c /\
             tokens c = BadgeCss.badge bs :: tokens className) /\
  class_of (Card cs children "" props) = Some (CardCss.card cs +:+ " ") /\
  class_of (Badge bs children "" props) = Some (BadgeCss.badge bs +:+ " ").
Proof.
  intros Hc Hp Hi Hb.
  repeat split; try (eexists; split; [reflexivity|]).
  - apply (tokens_join_then [CardCss.card cs]). now repeat constructor.
  - apply (tokens_join_then [CardCss.card cs; CardCss.panel cs]).
    now repeat constructor.
  - apply (tokens_join_then [CardCss.card cs; CardCss.item cs]).
    now repeat constructor.
  - apply (tokens_join_then [BadgeCss.badge bs]). now repeat constructor.
Qed.

Lemma Card_family_class_tokens_witness :
  class_name "card" = true /\ class_name "panel" = true /\
  class_name "item" = true /\ class_name "badge" = true /\
  (exists c, class_of (Card (CardCss.mk "card" "panel" "item") tt "wide" tt)
               = Some c /\
             tokens c = "card" :: tokens "wide") /\
  (exists c, class_of (CardPanel (CardCss.mk "card" "panel" "item")
                         tt "wide" tt) = Some c /\
             tokens c = "card" :: "panel" :: tokens "wide") /\
  (exists c, class_of (CardItem (CardCss.mk "card" "panel" "item")
                         tt "wide" tt) = Some c /\
             tokens c = "card" :: "item" :: tokens "wide") /\
  (exists c, class_of (Badge (BadgeCss.mk "badge") tt "wide" tt) = Some c /\
             tokens c = "badge" :: tokens "wide") /\
  class_of (Card (CardCss.mk "card" "panel" "item") tt "" tt)
    = Some ("card" +:+ " ") /\
  class_of (Badge (BadgeCss.mk "badge") tt "" tt) = Some ("badge" +:+ " ").
Proof.
  split; [reflexivity|]. split; [reflexivity|].
  split; [reflexivity|]. split; [reflexivity|].
  apply (Card_family_class_tokens (CardCss.mk "card" "panel" "item")
           (BadgeCss.mk "badge") tt "wide" tt); reflexivity.
Defined.

(** X15. [Input] puts the caller's [className] on the wrapping [div],
    after [styles.wrap]; the [input] element inside always has the single
    class [styles.input], then [value], [onChange] and [placeholder], then
    the caller's remaining props. *)
Theorem Input_class_tokens {V} (styles : InputCss.styles)
    (value onChange placeholder : V) (className : string) (props : V) :
  class_name (InputCss.wrap styles) = true ->
  class_name (InputCss.input styles) = true ->
  exists c,
    Input styles value onChange placeholder className props =
      Elem "div" [Str "className" c]
        [Elem "input"
           [Str "className" (InputCss.input styles);
            Val "value" value; Val "onChange" onChange;
            Val "placeholder" placeholder; Spread props] []] /\
    tokens c = InputCss.wrap styles :: tokens className /\
    tokens (InputCss.input styles) = [InputCss.input styles].
Proof.
  intros Hw Hi. eexists. split; [reflexivity|]. split.
  - apply (tokens_join_then [InputCss.wrap styles]). now repeat constructor.
  - now apply tokens_single.
Qed.

Lemma Input_class_tokens_witness :
  class_name "wrap" = true /\ class_name "input" = true /\
  exists c,
    Input (InputCss.mk "wrap" "input") tt tt tt "wide" tt =
      Elem "div" [Str "className" c]
        [Elem "input"
           [Str "className" "input";
            Val "value" tt; Val "onChange" tt;
            Val "placeholder" tt; Spread tt] []] /\
    tokens c = "wrap" :: tokens "wide" /\
    tokens "input" = ["input"].
Proof.
  split; [reflexivity|]. split; [reflexivity|].
  apply (Input_class_tokens (InputCss.mk "wrap" "input") tt tt tt "wide" tt);
    reflexivity.
Defined.
